(** * PipeWire tools: the loopback engine and the pulse null-sink factory

    A shallow embedding of
    - [src/tools/pw-loopback.c]: [capture_process], [setup_streams],
      [on_core_error], [do_quit] and [main];
    - [src/modules/module-protocol-pulse/module-null-sink.c]:
      [create_module_null_sink], [module_null_sink_load],
      [module_null_sink_unload] and the proxy's callbacks;
    - [src/tools/json.h]: [ot_json_dump2] and [ot_json_dump];
    together with the properties of these functions that the specification
    of the repository states, and further properties read off the code.

    Conventions.  C integers are values of [Z] with the conversions written
    out ([to_int32], [to_uint32]); where C leaves the value of an
    expression undefined (the signed overflow of line 255 of
    [pw-loopback.c]), what the program computes is a parameter ([Build]).
    A pointer that may be [NULL] is an [option].  Library objects that the
    C code only reaches through libpipewire calls (property dictionaries,
    streams, buffers) are records holding what those calls observe. *)

From Stdlib Require Import Strings.Ascii.
From stdpp Require Import gmap strings list fin_maps pretty.

Open Scope Z_scope.

(** ** Machine integers *)

(** Conversion to a 32-bit [int]: two's complement wrap-around, which is
    what the usual targets do when a [long] is converted to [int]. *)
Definition to_int32 (z : Z) : Z := (z + 2 ^ 31) mod 2 ^ 32 - 2 ^ 31.

(** Conversion to [uint32_t]. *)
Definition to_uint32 (z : Z) : Z := z mod 2 ^ 32.

Definition LONG_MAX : Z := 2 ^ 63 - 1.
Definition LONG_MIN : Z := - 2 ^ 63.

(** ** C library: [atoi] and [printf]'s [%u]

    Modelled from the C library (not part of this repository):
    [atoi (s)] is [(int) strtol (s, NULL, 10)]: leading white space is
    skipped, an optional sign is read, then the longest run of decimal
    digits; the value saturates at the range of [long] and is then
    converted to [int]. *)

Definition isspace (c : ascii) : bool :=
  let n := Z.of_nat (nat_of_ascii c) in
  bool_decide (n = 32) || (bool_decide (9 ≤ n) && bool_decide (n ≤ 13)).

Definition digit_of (c : ascii) : option Z :=
  let n := Z.of_nat (nat_of_ascii c) in
  if bool_decide (48 ≤ n) && bool_decide (n ≤ 57) then Some (n - 48) else None.

Fixpoint skip_space (s : string) : string :=
  match s with
  | String c r => if isspace c then skip_space r else s
  | EmptyString => EmptyString
  end.

Fixpoint read_digits (acc : Z) (s : string) : Z :=
  match s with
  | String c r =>
      match digit_of c with
      | Some d => read_digits (acc * 10 + d) r
      | None => acc
      end
  | EmptyString => acc
  end.

Definition strtol (s : string) : Z :=
  let v :=
    match skip_space s with
    | String "-" r => - read_digits 0 r
    | String "+" r => read_digits 0 r
    | r => read_digits 0 r
    end in
  Z.max LONG_MIN (Z.min LONG_MAX v).

Definition atoi (s : string) : Z := to_int32 (strtol s).

(** [%u] of an [unsigned int]. *)
Definition fmt_u (x : Z) : string := pretty (Z.to_N (to_uint32 x)).

(** [%zd] of a [size_t]. *)
Definition fmt_zd (x : Z) : string := pretty x.

(** ** Property dictionary ([struct pw_properties])

    Modelled from the spec: [pw_properties_new], [pw_properties_get],
    [pw_properties_set], [pw_properties_setf] and
    [pw_properties_update_string] belong to libpipewire
    ([src/pipewire/properties.c]), which is not among the sources at hand.
    The spec, section 4.1: an ordered mapping from string keys to string
    values with unique keys, the order of first insertion retained;
    [set (key, value)] inserts or overwrites, and removes the key when the
    value is absent; [setf] is [set] on the formatted result; [get] returns
    the current value or "unset"; [update_from_string] parses a bag of
    [k=v] items and merges them into the dictionary. *)

Definition pw_properties : Type := list (string * string).

Definition pw_properties_new : pw_properties := [].

Fixpoint pw_properties_get (props : pw_properties) (key : string) : option string :=
  match props with
  | [] => None
  | (k, v) :: rest => if decide (k = key) then Some v else pw_properties_get rest key
  end.

Fixpoint overwrite_item (key value : string) (props : pw_properties) : pw_properties :=
  match props with
  | [] => []
  | (k, v) :: rest =>
      if decide (k = key) then (k, value) :: rest
      else (k, v) :: overwrite_item key value rest
  end.

Fixpoint remove_item (key : string) (props : pw_properties) : pw_properties :=
  match props with
  | [] => []
  | (k, v) :: rest =>
      if decide (k = key) then remove_item key rest
      else (k, v) :: remove_item key rest
  end.

(** [value = None] is the C call with a [NULL] value. *)
Definition pw_properties_set (props : pw_properties) (key : string)
    (value : option string) : pw_properties :=
  match value with
  | None => remove_item key props
  | Some v =>
      match pw_properties_get props key with
      | Some _ => overwrite_item key v props
      | None => props ++ [(key, v)]
      end
  end.

(** The caller formats; the call stores the result. *)
Definition pw_properties_setf (props : pw_properties) (key formatted : string)
    : pw_properties :=
  pw_properties_set props key (Some formatted).

(** Merging a parsed bag: one [pw_properties_set] per item, in order. *)
Definition merge_items (props : pw_properties)
    (items : list (string * option string)) : pw_properties :=
  foldl (λ p kv, pw_properties_set p kv.1 kv.2) props items.

(** The value an overlay finally gives to [key], if it mentions it. *)
Definition overlay_value (items : list (string * option string)) (key : string)
    : option (option string) :=
  foldl (λ acc kv, if decide (kv.1 = key) then Some kv.2 else acc) None items.

(** ** A reader for [k=v] bags

    Modelled from the spec: the text format accepted by
    [pw_properties_update_string] (libpipewire) and by [add_props] (the
    pulse server's module loader); neither function is among the sources at
    hand.  The spec, section 4.1: a white-space separated bag of [k=v] or
    [k="v with spaces"] items; a double quote delimits, a backslash escapes
    the next character, an unquoted token ends at white space or at [=].
    The reader stops at the first malformed item and keeps what it has
    read. *)

Definition dquote : ascii := ascii_of_nat 34.
Definition backslash : ascii := ascii_of_nat 92.

Inductive bag_state : Type :=
  | BagSkip                            (* between items *)
  | BagKey (k : string)                (* inside an unquoted key *)
  | BagValStart (k : string)           (* just after [=] *)
  | BagVal (k v : string)              (* inside an unquoted value *)
  | BagQuoted (k v : string)           (* inside a quoted value *)
  | BagEscaped (k v : string)          (* after a backslash in a quoted value *)
  | BagStop.                           (* malformed input seen *)

Definition snoc_char (s : string) (c : ascii) : string := s +:+ String c EmptyString.

Definition bag_step (st : bag_state) (c : ascii)
    : bag_state * list (string * string) :=
  match st with
  | BagSkip =>
      if isspace c then (BagSkip, [])
      else if decide (c = "="%char) then (BagStop, [])
      else (BagKey (String c EmptyString), [])
  | BagKey k =>
      if decide (c = "="%char) then (BagValStart k, [])
      else if isspace c then (BagStop, [])
      else (BagKey (snoc_char k c), [])
  | BagValStart k =>
      if decide (c = dquote) then (BagQuoted k EmptyString, [])
      else if isspace c then (BagSkip, [(k, EmptyString)])
      else if decide (c = "="%char) then (BagStop, [])
      else (BagVal k (String c EmptyString), [])
  | BagVal k v =>
      if isspace c then (BagSkip, [(k, v)])
      else if decide (c = "="%char) then (BagStop, [])
      else (BagVal k (snoc_char v c), [])
  | BagQuoted k v =>
      if decide (c = dquote) then (BagSkip, [(k, v)])
      else if decide (c = backslash) then (BagEscaped k v, [])
      else (BagQuoted k (snoc_char v c), [])
  | BagEscaped k v => (BagQuoted k (snoc_char v c), [])
  | BagStop => (BagStop, [])
  end.

Fixpoint bag_run (st : bag_state) (text : string) : list (string * string) :=
  match text with
  | String c rest => let '(st', out) := bag_step st c in out ++ bag_run st' rest
  | EmptyString =>
      match st with
      | BagValStart k => [(k, EmptyString)]
      | BagVal k v => [(k, v)]
      | _ => []
      end
  end.

Definition parse_bag (text : string) : list (string * string) := bag_run BagSkip text.

(** ** Library functions taken as parameters

    [pw_properties_update_string] is called by [main] and lives in
    libpipewire: the embedding takes the items it reads from a text (in the
    order in which it sets them, [None] for a null value) as a parameter. *)

Class PipewireLib : Type := {
  update_string_items : string → list (string * option string)
}.

Definition pw_properties_update_string `{PipewireLib}
    (props : pw_properties) (str : string) : pw_properties :=
  merge_items props (update_string_items str).

(** The parameter as the spec describes the format. *)
Definition spec_pipewire_lib : PipewireLib :=
  {| update_string_items str := (λ kv, (kv.1, Some kv.2)) <$> parse_bag str |}.

(** * [pw-loopback.c] *)

Definition DEFAULT_RATE : Z := 48000.
Definition DEFAULT_CHANNELS : Z := 2.
Definition DEFAULT_CHANNEL_MAP : string := "[ FL, FR ]".

(** Constants of the pipewire and spa headers (not among the sources at
    hand), with the values those headers give them. *)
Definition SPA_MSEC_PER_SEC : Z := 1000.
Definition PW_KEY_NODE_TARGET : string := "node.target".
Definition PW_KEY_NODE_GROUP : string := "node.group".
Definition PW_KEY_NODE_LATENCY : string := "node.latency".
Definition PW_ID_CORE : Z := 0.
Definition PW_ID_ANY : Z := 4294967295.
Definition EPIPE : Z := 32.
Definition EINVAL : Z := 22.
Definition SIGINT : Z := 2.
Definition SIGTERM : Z := 15.
Definition PW_STREAM_FLAG_AUTOCONNECT : Z := 1 ≪ 0.
Definition PW_STREAM_FLAG_MAP_BUFFERS : Z := 1 ≪ 2.
Definition PW_STREAM_FLAG_RT_PROCESS : Z := 1 ≪ 4.
Definition SPA_AUDIO_FLAG_UNPOSITIONED : Z := 1 ≪ 0.
Definition SPA_AUDIO_FORMAT_F32P : Z := 518.
Definition SPA_PARAM_EnumFormat : Z := 3.
Definition SPA_AUDIO_MAX_CHANNELS : nat := 64.

(** ** Buffers

    Modelled from the spec: [struct spa_buffer] is declared in the spa
    headers, not among the sources at hand.  The spec, section 4.6, names
    what the descriptor holds: the data pointer vector, the frame count and
    the stride. *)
Record spa_buffer : Type := SpaBuffer {
  datas : list Z;      (* addresses of the channels' sample regions *)
  frames : Z;
  stride : Z
}.

Global Instance spa_buffer_inhabited : Inhabited spa_buffer :=
  populate (SpaBuffer [] 0 0).

(** [struct pw_buffer]: [buffer] is the address of its [struct spa_buffer]. *)
Record pw_buffer : Type := PwBuffer { buffer : Z }.

Global Instance pw_buffer_eq_dec : EqDecision pw_buffer.
Proof. solve_decision. Defined.

Inductive log_level : Type := LogError | LogWarn.

(** What the callbacks read and write outside [struct data]: the
    descriptors by address, the shared sample memory by byte address, and
    the log. *)
Record world : Type := World {
  descriptors : gmap Z spa_buffer;
  samples : gmap Z Z;
  log : list (log_level * string)
}.

Definition world_empty : world := World ∅ ∅ [].

Definition pw_log_warn (w : world) (msg : string) : world :=
  World (descriptors w) (samples w) (log w ++ [(LogWarn, msg)]).

Definition pw_log_error (w : world) (msg : string) : world :=
  World (descriptors w) (samples w) (log w ++ [(LogError, msg)]).

(** [*dst->buffer = *src->buffer]: a structure assignment. *)
Definition assign_buffer (w : world) (dst src : pw_buffer) : world :=
  World (<[buffer dst := descriptors w !!! buffer src]> (descriptors w))
        (samples w) (log w).

(** The bytes a descriptor designates, channel by channel. *)
Definition buffer_bytes (w : world) (b : spa_buffer) : list Z :=
  p ← datas b; (λ i, samples w !!! (p + i)) <$> seqZ 0 (frames b * stride b).

(** A buffer is silent when every byte it designates is zero; an empty
    buffer (no frames) is silent. *)
Definition silent (w : world) (b : spa_buffer) : bool :=
  forallb (λ x, bool_decide (x = 0)) (buffer_bytes w b).

(** ** Streams

    Modelled from the spec: [pw_stream_new], [pw_stream_connect],
    [pw_stream_dequeue_buffer] and [pw_stream_queue_buffer] belong to
    libpipewire.  The spec, section 4.5: [dequeue_buffer] acquires the
    next available buffer of the ring managed by the daemon, or reports
    that there is none; [queue_buffer] returns a buffer to the daemon;
    [connect] asks the daemon to place the stream into the graph and
    reports its verdict synchronously.  A stream records the calls made on
    it. *)

Inductive spa_direction : Type := PW_DIRECTION_INPUT | PW_DIRECTION_OUTPUT.

Record spa_audio_info_raw : Type := AudioInfoRaw {
  info_format : Z;
  info_flags : Z;
  info_rate : Z;
  info_channels : Z;
  info_position : list Z
}.

(** [SPA_AUDIO_INFO_RAW_INIT]: the fields not named are zero. *)
Definition SPA_AUDIO_INFO_RAW_INIT (flags format channels : Z) : spa_audio_info_raw :=
  AudioInfoRaw format flags 0 channels (replicate SPA_AUDIO_MAX_CHANNELS 0).

Record spa_pod : Type := SpaPod { pod_id : Z; pod_info : spa_audio_info_raw }.

Definition spa_format_audio_raw_build (id : Z) (info : spa_audio_info_raw) : spa_pod :=
  SpaPod id info.

Record connect_call : Type := ConnectCall {
  call_direction : spa_direction;
  call_target : Z;
  call_flags : Z;
  call_params : list spa_pod
}.

Inductive stream_op : Type :=
  | OpDequeue (r : option pw_buffer)
  | OpQueue (b : pw_buffer).

Record pw_stream : Type := Stream {
  stream_name : string;
  stream_props : pw_properties;     (* the dictionary it was constructed with *)
  has_process : bool;               (* the listener has a [process] callback *)
  connected : option connect_call;  (* the [pw_stream_connect] call, if made *)
  ring : list pw_buffer;            (* the buffers that can be dequeued now *)
  history : list stream_op          (* dequeue and queue calls, oldest first *)
}.

Definition pw_stream_new (fails : option Z) (name : string)
    (props : option pw_properties) : option pw_stream :=
  match fails with
  | Some _ => None
  | None => Some (Stream name (default pw_properties_new props) false None [] [])
  end.

Definition pw_stream_add_listener (s : pw_stream) (process : bool) : pw_stream :=
  Stream (stream_name s) (stream_props s) process (connected s) (ring s) (history s).

Definition pw_stream_connect (s : pw_stream) (direction : spa_direction)
    (target flags : Z) (params : list spa_pod) : pw_stream :=
  Stream (stream_name s) (stream_props s) (has_process s)
         (Some (ConnectCall direction target flags params)) (ring s) (history s).

Definition pw_stream_dequeue_buffer (s : pw_stream) : pw_stream * option pw_buffer :=
  match ring s with
  | [] =>
      (Stream (stream_name s) (stream_props s) (has_process s) (connected s)
              [] (history s ++ [OpDequeue None]), None)
  | b :: rest =>
      (Stream (stream_name s) (stream_props s) (has_process s) (connected s)
              rest (history s ++ [OpDequeue (Some b)]), Some b)
  end.

Definition pw_stream_queue_buffer (s : pw_stream) (b : pw_buffer) : pw_stream :=
  Stream (stream_name s) (stream_props s) (has_process s) (connected s)
         (ring s) (history s ++ [OpQueue b]).

(** The daemon makes buffers available between two callbacks. *)
Definition daemon_refill (s : pw_stream) (bufs : list pw_buffer) : pw_stream :=
  Stream (stream_name s) (stream_props s) (has_process s) (connected s)
         bufs (history s).

(** ** [struct data] *)

(** [struct pw_main_loop], as far as [main] observes it.  Modelled from
    the spec, section 4.3: [run] blocks until [quit]; [quit] sets the
    terminate flag. *)
Record pw_main_loop : Type := MainLoop { running : bool }.

Record data : Type := Data {
  loop : option pw_main_loop;
  context : bool;                       (* [context != NULL] *)
  core : bool;                          (* [core != NULL] *)
  opt_group_name : option string;
  opt_channel_map : option string;
  channels : Z;                         (* uint32_t *)
  latency : Z;                          (* uint32_t *)
  capture_props : option pw_properties;
  capture : option pw_stream;
  playback_props : option pw_properties;
  playback : option pw_stream
}.

(** [struct data data = { 0 }]. *)
Definition data_zero : data :=
  Data None false false None None 0 0 None None None None.

Definition set_loop (d : data) (x : option pw_main_loop) : data :=
  Data x (context d) (core d) (opt_group_name d) (opt_channel_map d) (channels d)
       (latency d) (capture_props d) (capture d) (playback_props d) (playback d).
Definition set_context (d : data) (x : bool) : data :=
  Data (loop d) x (core d) (opt_group_name d) (opt_channel_map d) (channels d)
       (latency d) (capture_props d) (capture d) (playback_props d) (playback d).
Definition set_core (d : data) (x : bool) : data :=
  Data (loop d) (context d) x (opt_group_name d) (opt_channel_map d) (channels d)
       (latency d) (capture_props d) (capture d) (playback_props d) (playback d).
Definition set_opt_group_name (d : data) (x : option string) : data :=
  Data (loop d) (context d) (core d) x (opt_channel_map d) (channels d)
       (latency d) (capture_props d) (capture d) (playback_props d) (playback d).
Definition set_opt_channel_map (d : data) (x : option string) : data :=
  Data (loop d) (context d) (core d) (opt_group_name d) x (channels d)
       (latency d) (capture_props d) (capture d) (playback_props d) (playback d).
Definition set_channels (d : data) (x : Z) : data :=
  Data (loop d) (context d) (core d) (opt_group_name d) (opt_channel_map d) x
       (latency d) (capture_props d) (capture d) (playback_props d) (playback d).
Definition set_latency (d : data) (x : Z) : data :=
  Data (loop d) (context d) (core d) (opt_group_name d) (opt_channel_map d) (channels d)
       x (capture_props d) (capture d) (playback_props d) (playback d).
Definition set_capture_props (d : data) (x : option pw_properties) : data :=
  Data (loop d) (context d) (core d) (opt_group_name d) (opt_channel_map d) (channels d)
       (latency d) x (capture d) (playback_props d) (playback d).
Definition set_capture (d : data) (x : option pw_stream) : data :=
  Data (loop d) (context d) (core d) (opt_group_name d) (opt_channel_map d) (channels d)
       (latency d) (capture_props d) x (playback_props d) (playback d).
Definition set_playback_props (d : data) (x : option pw_properties) : data :=
  Data (loop d) (context d) (core d) (opt_group_name d) (opt_channel_map d) (channels d)
       (latency d) (capture_props d) (capture d) x (playback d).
Definition set_playback (d : data) (x : option pw_stream) : data :=
  Data (loop d) (context d) (core d) (opt_group_name d) (opt_channel_map d) (channels d)
       (latency d) (capture_props d) (capture d) (playback_props d) x.

(** ** [capture_process]

    The callback of the capture stream.  [data->capture] and
    [data->playback] are dereferenced: the result is [None] when one of
    them is [NULL]. *)
Definition capture_process (d : data) (w : world) : option (data * world) :=
  cs ← capture d;
  ps ← playback d;
  let '(cs, i) := pw_stream_dequeue_buffer cs in
  let w := if i is None then pw_log_warn w "out of capture buffers: %m" else w in
  let '(ps, o) := pw_stream_dequeue_buffer ps in
  let w := if o is None then pw_log_warn w "out of playback buffers: %m" else w in
  let w :=
    match i, o with
    | Some i, Some o => assign_buffer w o i
    | _, _ => w
    end in
  let cs := if i is Some i then pw_stream_queue_buffer cs i else cs in
  let ps := if o is Some o then pw_stream_queue_buffer ps o else ps in
  Some (set_playback (set_capture d (Some cs)) (Some ps), w).

(** ** The environment of one run

    What the process and the daemon decide: the program name and the
    process id, whether each constructor of libpipewire succeeds (for the
    streams: the [errno] of a failure), the daemon's verdict on each
    [pw_stream_connect], and the events the main loop receives, in
    order. *)
Inductive loop_event : Type :=
  | SignalEvent (signal_number : Z)
  | CoreErrorEvent (id seq res : Z) (message : string).

Record env : Type := Env {
  argv0 : string;
  pid : Z;
  client_name : option string;          (* [pw_get_client_name ()] *)
  capture_props_new_ok : bool;
  playback_props_new_ok : bool;
  main_loop_new_ok : bool;
  context_new_ok : bool;
  context_connect_ok : bool;
  capture_new_fails : option Z;
  playback_new_fails : option Z;
  capture_connect_res : Z;
  playback_connect_res : Z;
  loop_events : list loop_event
}.

(** ** [setup_streams]: the streams and the value returned *)
Definition setup_streams (e : env) (d : data) : data * Z :=
  let d := set_capture d
             (pw_stream_new (capture_new_fails e) "loopback capture" (capture_props d)) in
  let d := set_capture_props d None in
  match capture d with
  | None => (d, - default 0 (capture_new_fails e))
  | Some cs =>
      let cs := pw_stream_add_listener cs true in
      let d := set_capture d (Some cs) in
      let d := set_playback d
                 (pw_stream_new (playback_new_fails e) "loopback playback" (playback_props d)) in
      let d := set_playback_props d None in
      match playback d with
      | None => (d, - default 0 (playback_new_fails e))
      | Some ps =>
          let ps := pw_stream_add_listener ps false in
          let d := set_playback d (Some ps) in
          let params :=
            [spa_format_audio_raw_build SPA_PARAM_EnumFormat
               (SPA_AUDIO_INFO_RAW_INIT SPA_AUDIO_FLAG_UNPOSITIONED
                  SPA_AUDIO_FORMAT_F32P (channels d))] in
          let d := set_capture d
                     (Some (pw_stream_connect cs PW_DIRECTION_INPUT PW_ID_ANY
                              (Z.lor PW_STREAM_FLAG_AUTOCONNECT
                                 (Z.lor PW_STREAM_FLAG_MAP_BUFFERS PW_STREAM_FLAG_RT_PROCESS))
                              params)) in
          let res := capture_connect_res e in
          if bool_decide (res < 0) then (d, res)
          else
            let d := set_playback d
                       (Some (pw_stream_connect ps PW_DIRECTION_OUTPUT PW_ID_ANY
                                (Z.lor PW_STREAM_FLAG_AUTOCONNECT
                                   (Z.lor PW_STREAM_FLAG_MAP_BUFFERS PW_STREAM_FLAG_RT_PROCESS))
                                params)) in
            let res := playback_connect_res e in
            if bool_decide (res < 0) then (d, res)
            else (d, 0)
      end
  end.

(** ** The listeners of the main loop *)

Definition pw_main_loop_quit (l : option pw_main_loop) : option pw_main_loop :=
  (λ _, MainLoop false) <$> l.

(** The line logged is the one of the source without the text of
    [spa_strerror (res)], which the C library supplies. *)
Definition on_core_error (d : data) (w : world) (id seq res : Z) (message : string)
    : data * world :=
  let w := pw_log_error w ("error id:" +:+ fmt_u id +:+ " seq:" +:+ pretty seq
                           +:+ " res:" +:+ pretty res +:+ ": " +:+ message) in
  if bool_decide (id = PW_ID_CORE) && bool_decide (res = - EPIPE)
  then (set_loop d (pw_main_loop_quit (loop d)), w)
  else (d, w).

Definition do_quit (d : data) (signal_number : Z) : data :=
  set_loop d (pw_main_loop_quit (loop d)).

(** One event of the loop: [SIGINT] and [SIGTERM] are bound to [do_quit]
    and the errors of the core to [on_core_error]. *)
Definition dispatch (ev : loop_event) (d : data) (w : world) : data * world :=
  match ev with
  | SignalEvent sig =>
      if bool_decide (sig = SIGINT) || bool_decide (sig = SIGTERM)
      then (do_quit d sig, w) else (d, w)
  | CoreErrorEvent id seq res message => on_core_error d w id seq res message
  end.

Definition is_running (d : data) : bool :=
  match loop d with Some l => running l | None => false end.

(** [while (loop->running) iterate]: [None] when the events at hand are
    used up and the loop still runs. *)
Fixpoint iterate (evs : list loop_event) (d : data) (w : world) : option (data * world) :=
  match evs with
  | [] => None
  | ev :: evs =>
      let '(d, w) := dispatch ev d w in
      if is_running d then iterate evs d w else Some (d, w)
  end.

Definition pw_main_loop_run (evs : list loop_event) (d : data) (w : world)
    : option (data * world) :=
  iterate evs (set_loop d ((λ _, MainLoop true) <$> loop d)) w.

(** ** [main] *)

(** What [getopt_long] returns, call after call. *)
Inductive opt : Type :=
  | OptHelp
  | OptVersion
  | OptRemote (optarg : string)
  | OptGroup (optarg : string)
  | OptChannels (optarg : string)
  | OptChannelMap (optarg : string)
  | OptLatency (optarg : string)
  | OptCapture (optarg : string)
  | OptPlayback (optarg : string)
  | OptCaptureProps (optarg : string)
  | OptPlaybackProps (optarg : string)
  | OptUnknown.

(** Line 255 multiplies two [int]s before it divides.  A product outside
    the range of [int] is undefined in C: what the program at hand
    computes for the expression then is a parameter of the embedding, and
    the properties below hold for every choice of it. *)
Class Build : Type := {
  overflowed_frames : Z → Z
}.

(** [atoi (optarg) * DEFAULT_RATE / SPA_MSEC_PER_SEC], for [atoi (optarg)]
    equal to [ms]. *)
Definition latency_frames `{Build} (ms : Z) : Z :=
  if bool_decide (- 2 ^ 31 ≤ ms * DEFAULT_RATE < 2 ^ 31)
  then (ms * DEFAULT_RATE) `quot` SPA_MSEC_PER_SEC
  else overflowed_frames ms.

(** Two builds.  The first simplifies the expression to [ms * 48] and
    multiplies in 32 bits, as gcc does by default; the second multiplies
    by 48000 in 32 bits and divides then, as gcc does with [-fwrapv]. *)
Definition folding_build : Build :=
  {| overflowed_frames ms := to_int32 (ms * 48) |}.
Definition wrapping_build : Build :=
  {| overflowed_frames ms := to_int32 (ms * DEFAULT_RATE) `quot` SPA_MSEC_PER_SEC |}.

(** The body of the [switch]: [inl] is a [return] out of [main]. *)
Definition handle_opt `{PipewireLib} `{Build} (c : opt) (d : data) : Z + data :=
  match c with
  | OptHelp => inl 0
  | OptVersion => inl 0
  | OptRemote optarg => inr d
  | OptGroup optarg => inr (set_opt_group_name d (Some optarg))
  | OptChannels optarg => inr (set_channels d (to_uint32 (atoi optarg)))
  | OptChannelMap optarg => inr (set_opt_channel_map d (Some optarg))
  | OptLatency optarg =>
      inr (set_latency d (to_uint32 (latency_frames (atoi optarg))))
  | OptCapture optarg =>
      inr (set_capture_props d
             ((λ p, pw_properties_set p PW_KEY_NODE_TARGET (Some optarg)) <$> capture_props d))
  | OptPlayback optarg =>
      inr (set_playback_props d
             ((λ p, pw_properties_set p PW_KEY_NODE_TARGET (Some optarg)) <$> playback_props d))
  | OptCaptureProps optarg =>
      inr (set_capture_props d
             ((λ p, pw_properties_update_string p optarg) <$> capture_props d))
  | OptPlaybackProps optarg =>
      inr (set_playback_props d
             ((λ p, pw_properties_update_string p optarg) <$> playback_props d))
  | OptUnknown => inl (-1)
  end.

Fixpoint getopt_loop `{PipewireLib} `{Build} (opts : list opt) (d : data) : Z + data :=
  match opts with
  | [] => inr d
  | c :: opts =>
      match handle_opt c d with
      | inl code => inl code
      | inr d => getopt_loop opts d
      end
  end.

(** The value [main] returns ([None]: the loop still runs when the events
    at hand are used up), and the state it leaves. *)
Record outcome : Type := Outcome {
  exit_code : option Z;
  final : data;
  final_world : world;
  setup_result : option Z       (* what [setup_streams] returned, if called *)
}.

(** Lines 216-223: the defaults and the two dictionaries. *)
Definition main_init (e : env) : data :=
  let d := data_zero in
  let d := set_channels d DEFAULT_CHANNELS in
  let d := set_opt_channel_map d (Some DEFAULT_CHANNEL_MAP) in
  let d := set_opt_group_name d (client_name e) in
  let cname := argv0 e +:+ "-" +:+ fmt_zd (pid e) in
  let d := if bool_decide (0 < Z.of_nat (String.length cname))
           then set_opt_group_name d (Some (String.substring 0 255 cname)) else d in
  let d := set_capture_props d
             (if capture_props_new_ok e then Some pw_properties_new else None) in
  set_playback_props d
    (if playback_props_new_ok e then Some pw_properties_new else None).

(** Lines 291-300: the group and the latency, written into both
    dictionaries. *)
Definition main_props (d : data) : data :=
  let d :=
    match opt_group_name d with
    | Some g =>
        let d := set_capture_props d
                   ((λ p, pw_properties_set p PW_KEY_NODE_GROUP (Some g))
                      <$> capture_props d) in
        set_playback_props d
          ((λ p, pw_properties_set p PW_KEY_NODE_GROUP (Some g))
             <$> playback_props d)
    | None => d
    end in
  if bool_decide (latency d ≠ 0) then
    let d := set_capture_props d
               ((λ p, pw_properties_setf p PW_KEY_NODE_LATENCY
                        (fmt_u (latency d) +:+ "/" +:+ fmt_u DEFAULT_RATE))
                  <$> capture_props d) in
    set_playback_props d
      ((λ p, pw_properties_setf p PW_KEY_NODE_LATENCY
               (fmt_u (latency d) +:+ "/" +:+ fmt_u DEFAULT_RATE))
         <$> playback_props d)
  else d.

(** Lines 316-320: [setup_streams] is called and its value dropped, the
    loop runs, and [res] becomes 0. *)
Definition main_run (e : env) (d : data) (w : world) : outcome :=
  let '(d, sres) := setup_streams e d in
  match pw_main_loop_run (loop_events e) d w with
  | None => Outcome None d w (Some sres)
  | Some (d, w) =>
      let res := 0 in
      Outcome (Some res) d w (Some sres)
  end.

(** Lines 275-320: the loop, the context, the engine's properties, the
    connection to the daemon, the streams and the run. *)
Definition main_start (e : env) (d : data) (w : world) : outcome :=
  let res := -1 in
  let d := set_loop d (if main_loop_new_ok e then Some (MainLoop false) else None) in
  if bool_decide (loop d = None) then Outcome (Some res) d w None
  else
    let d := set_context d (context_new_ok e) in
    if negb (context d) then Outcome (Some res) d w None
    else
      let d := main_props d in
      let d := set_core d (context_connect_ok e) in
      if negb (core d) then Outcome (Some res) d w None
      else main_run e d w.

Definition main `{PipewireLib} `{Build} (e : env) (opts : list opt) : outcome :=
  let w := world_empty in
  let res := -1 in
  let d := main_init e in
  if bool_decide (capture_props d = None ∨ playback_props d = None)
  then Outcome (Some res) d w None
  else
    match getopt_loop opts d with
    | inl code => Outcome (Some code) d w None
    | inr d => main_start e d w
    end.

(** A run starts when every constructor before [setup_streams] succeeds
    and no option makes [main] return; [d] is [struct data] after the
    options are read. *)
Definition starts `{PipewireLib} `{Build} (e : env) (opts : list opt) (d : data) : Prop :=
  capture_props_new_ok e = true ∧ playback_props_new_ok e = true ∧
  main_loop_new_ok e = true ∧ context_new_ok e = true ∧
  context_connect_ok e = true ∧
  getopt_loop opts (main_init e) = inr d.

(** The options that write into the capture, resp. playback, dictionary. *)
Definition writes_capture_props (c : opt) : bool :=
  match c with
  | OptCapture _ | OptCaptureProps _ => true
  | _ => false
  end.

Definition writes_playback_props (c : opt) : bool :=
  match c with
  | OptPlayback _ | OptPlaybackProps _ => true
  | _ => false
  end.

Definition is_latency_opt (c : opt) : bool :=
  match c with
  | OptLatency _ => true
  | _ => false
  end.

(** An error of the core that is not "the daemon closed the connection". *)
Definition other_core_error (ev : loop_event) : Prop :=
  match ev with
  | CoreErrorEvent id seq res message => ¬ (id = PW_ID_CORE ∧ res = - EPIPE)
  | SignalEvent _ => False
  end.

(** The flags both [pw_stream_connect] calls are given. *)
Definition connect_flags : Z :=
  Z.lor PW_STREAM_FLAG_AUTOCONNECT
    (Z.lor PW_STREAM_FLAG_MAP_BUFFERS PW_STREAM_FLAG_RT_PROCESS).

(** * [module-null-sink.c] *)

(** Modelled from the spec: [struct channel_map] is declared in the pulse
    server's headers, not among the sources at hand.  The spec, section 3:
    a sequence of at most [MAX_CHANNELS] position tags plus an explicit
    channel count. *)
Record channel_map : Type := ChannelMap {
  map_channels : Z;
  map : list Z
}.

Definition CHANNEL_MAP_INIT : channel_map :=
  ChannelMap 0 (replicate SPA_AUDIO_MAX_CHANNELS 0).

(** [impl->defs], as far as the factory reads it. *)
Record impl : Type := Impl {
  defs_sample_spec_channels : Z;
  defs_channel_map : channel_map
}.

(** Functions and constants of the pulse server that the factory calls
    and that are not among the sources at hand, taken as parameters:
    [add_props] (given as the items it sets, in order), [channel_map_parse],
    [channel_id2name] and the build's [PACKAGE_VERSION]. *)
Class PulseServer : Type := {
  add_props_items : string → list (string * string);
  channel_map_parse : string → channel_map → channel_map;
  channel_id2name : Z → string;
  PACKAGE_VERSION : string
}.

Definition add_props `{PulseServer} (props : pw_properties) (str : string)
    : pw_properties :=
  merge_items props ((λ kv, (kv.1, Some kv.2)) <$> add_props_items str).

Definition PW_KEY_MODULE_AUTHOR : string := "module.author".
Definition PW_KEY_MODULE_DESCRIPTION : string := "module.description".
Definition PW_KEY_MODULE_USAGE : string := "module.usage".
Definition PW_KEY_MODULE_VERSION : string := "module.version".
Definition PW_KEY_NODE_NAME : string := "node.name".
Definition PW_KEY_NODE_DESCRIPTION : string := "node.description".
Definition PW_KEY_MEDIA_CLASS : string := "media.class".
Definition PW_KEY_FACTORY_NAME : string := "factory.name".
Definition PW_KEY_OBJECT_LINGER : string := "object.linger".
Definition SPA_KEY_AUDIO_CHANNELS : string := "audio.channels".
Definition SPA_KEY_AUDIO_RATE : string := "audio.rate".
Definition SPA_KEY_AUDIO_POSITION : string := "audio.position".
Definition SPA_AUDIO_CHANNEL_UNKNOWN : Z := 0.
Definition SPA_ID_INVALID : Z := 4294967295.

Definition module_null_sink_info `{PulseServer} : list (string * string) :=
  [ (PW_KEY_MODULE_AUTHOR, "Wim Taymans <wim.taymans@gmail.com>");
    (PW_KEY_MODULE_DESCRIPTION, "A NULL sink");
    (PW_KEY_MODULE_USAGE,
       "sink_name=<name of sink> " +:+
       "sink_properties=<properties for the sink> " +:+
       "format=<sample format> " +:+
       "rate=<sample rate> " +:+
       "channels=<number of channels> " +:+
       "channel_map=<channel map>");
    (PW_KEY_MODULE_VERSION, PACKAGE_VERSION) ].

Definition pw_properties_new_dict (dict : list (string * string)) : pw_properties :=
  merge_items pw_properties_new ((λ kv, (kv.1, Some kv.2)) <$> dict).

(** [struct module] and its [struct module_null_sink_data]. *)
Record module : Type := ModuleRec {
  props : option pw_properties;
  global_id : Z
}.

(** What the allocators decide in one call. *)
Record sink_env : Type := SinkEnv {
  props_new_dict_ok : bool;
  module_new_fails : option Z      (* the [errno] of a failing [module_new] *)
}.

(** What [create_module_null_sink] does: it returns a module; or it
    returns [NULL], with the value left in [errno] and the dictionary given
    to [pw_properties_free] (if there was one); or its behaviour is
    undefined (a write past the end of [map.map], a [NULL] string read). *)
Inductive null_sink_result : Type :=
  | Created (m : module)
  | Failed (errno : Z) (freed : option pw_properties)
  | Undefined.

(** Lines 129-135: the module's own entries, then the argument's. *)
Definition null_sink_start `{PulseServer} (argument : option string) : pw_properties :=
  let props := pw_properties_new_dict module_null_sink_info in
  if argument is Some a then add_props props a else props.

(** Lines 137-146: [sink_name] and [sink_properties]. *)
Definition null_sink_names `{PulseServer} (props : pw_properties) : pw_properties :=
  let props :=
    match pw_properties_get props "sink_name" with
    | Some str =>
        let props := pw_properties_set props PW_KEY_NODE_NAME (Some str) in
        pw_properties_set props "sink_name" None
    | None => pw_properties_set props PW_KEY_NODE_NAME (Some "null")
    end in
  match pw_properties_get props "sink_properties" with
  | Some str =>
      let props := add_props props str in
      pw_properties_set props "sink_properties" None
  | None => props
  end.

(** Lines 147-158: [channels] and [rate]. *)
Definition null_sink_channels (i : impl) (props : pw_properties) : Z * pw_properties :=
  let '(channels, props) :=
    match pw_properties_get props "channels" with
    | Some str =>
        let channels := to_uint32 (atoi str) in
        let props := pw_properties_set props SPA_KEY_AUDIO_CHANNELS (Some str) in
        (channels, pw_properties_set props "channels" None)
    | None =>
        let channels := defs_sample_spec_channels i in
        (channels, pw_properties_setf props SPA_KEY_AUDIO_CHANNELS (fmt_u channels))
    end in
  match pw_properties_get props "rate" with
  | Some str =>
      let props := pw_properties_set props SPA_KEY_AUDIO_RATE (Some str) in
      (channels, pw_properties_set props "rate" None)
  | None => (channels, props)
  end.

(** Lines 159-170: the channel map; [None] when the loop writes past the
    end of [map.map]. *)
Definition null_sink_map `{PulseServer} (i : impl) (channels : Z) (props : pw_properties)
    : option (channel_map * pw_properties) :=
  match pw_properties_get props "channel_map" with
  | Some str =>
      Some (channel_map_parse str CHANNEL_MAP_INIT,
            pw_properties_set props "channel_map" None)
  | None =>
      if bool_decide (channels = map_channels (defs_channel_map i))
      then Some (defs_channel_map i, props)
      else if bool_decide (Z.of_nat SPA_AUDIO_MAX_CHANNELS < channels) then None
      else
        Some (ChannelMap channels
                (replicate (Z.to_nat channels) SPA_AUDIO_CHANNEL_UNKNOWN
                   ++ drop (Z.to_nat channels) (map CHANNEL_MAP_INIT)),
              props)
  end.

(** Lines 177-184.  [snprintf (p, 6, ...)] stores at most five characters
    and the terminator and returns the full length of the item, by which
    [p] advances: an item of five characters or less is followed by the
    next one, a longer item is cut after five characters and ends the
    string. *)
Fixpoint position_string `{PulseServer} (i : nat) (ids : list Z) : string :=
  match ids with
  | [] => ""
  | id :: rest =>
      let item := (if bool_decide (i = 0%nat) then "" else ",") +:+ channel_id2name id in
      if bool_decide (String.length item ≤ 5)%nat
      then item +:+ position_string (S i) rest
      else String.substring 0 5 item
  end.

Definition null_sink_position `{PulseServer} (m : channel_map) (props : pw_properties)
    : pw_properties :=
  if bool_decide (0 < map_channels m) then
    let s := position_string 0 ((λ i, map m !!! i) <$> seq 0 (Z.to_nat (map_channels m))) in
    pw_properties_set props SPA_KEY_AUDIO_POSITION (Some s)
  else props.

(** Lines 186-203; [None] when [name] is [NULL] where it is read. *)
Definition null_sink_description (props : pw_properties) : option pw_properties :=
  let props :=
    match pw_properties_get props PW_KEY_MEDIA_CLASS with
    | None => pw_properties_set props PW_KEY_MEDIA_CLASS (Some "Audio/Sink")
    | Some _ => props
    end in
  props ←
    match pw_properties_get props "device.description" with
    | Some str =>
        let props := pw_properties_set props PW_KEY_NODE_DESCRIPTION (Some str) in
        Some (pw_properties_set props "device.description" None)
    | None =>
        name ← pw_properties_get props PW_KEY_NODE_NAME;
        let class := pw_properties_get props PW_KEY_MEDIA_CLASS in
        Some (pw_properties_setf props PW_KEY_NODE_DESCRIPTION
                (name +:+ (if decide (name = "") then "" else " ")
                 +:+ default "" class
                 +:+ (match class with
                      | Some c => if decide (c = "") then "" else " "
                      | None => ""
                      end)
                 +:+ "sink"))
    end;
  let props := pw_properties_set props PW_KEY_FACTORY_NAME (Some "support.null-audio-sink") in
  Some (pw_properties_set props PW_KEY_OBJECT_LINGER (Some "true")).

Definition create_module_null_sink `{PulseServer} (e : sink_env) (i : impl)
    (argument : option string) : null_sink_result :=
  if negb (props_new_dict_ok e) then Failed EINVAL None
  else
    let props := null_sink_start argument in
    let props := null_sink_names props in
    let '(channels, props) := null_sink_channels i props in
    match null_sink_map i channels props with
    | None => Undefined
    | Some (m, props) =>
        if bool_decide (map_channels m ≠ channels) then Failed EINVAL (Some props)
        else
          let props := null_sink_position m props in
          match null_sink_description props with
          | None => Undefined
          | Some props =>
              match module_new_fails e with
              | Some errno => Failed errno (Some props)
              | None => Created (ModuleRec (Some props) SPA_ID_INVALID)
              end
          end
    end.

(** The parameters as the spec describes them.  Modelled from the spec,
    section 4.2: a channel map is written [[ FL, FR ]] or [FL,FR], white
    space is ignored; its length is the number of names.  (Positions are
    numbered here by the place of their name in the table below; names that
    are not in the table are [UNKNOWN].) *)
Definition position_names : list string :=
  ["UNK"; "NA"; "MONO"; "FL"; "FR"; "FC"; "LFE"; "SL"; "SR"].

Fixpoint split_names (cur : string) (text : string) : list string :=
  match text with
  | EmptyString => if decide (cur = "") then [] else [cur]
  | String c rest =>
      if isspace c || bool_decide (c = "["%char) || bool_decide (c = "]"%char)
      then split_names cur rest
      else if bool_decide (c = ","%char)
      then (if decide (cur = "") then [] else [cur]) ++ split_names "" rest
      else split_names (snoc_char cur c) rest
  end.

Fixpoint name_index (names : list string) (n : string) : option nat :=
  match names with
  | [] => None
  | x :: rest => if decide (x = n) then Some 0%nat else S <$> name_index rest n
  end.

Definition spec_channel_map_parse (text : string) (m : channel_map) : channel_map :=
  let ids := (λ n, Z.of_nat (default 0%nat (name_index position_names n)))
               <$> take SPA_AUDIO_MAX_CHANNELS (split_names "" text) in
  ChannelMap (Z.of_nat (length ids)) (ids ++ drop (length ids) (map m)).

Definition spec_pulse_server : PulseServer :=
  {| add_props_items := parse_bag;
     channel_map_parse := spec_channel_map_parse;
     channel_id2name id := default "UNK" (position_names !! Z.to_nat id);
     PACKAGE_VERSION := "0.3" |}.

(** * The realtime thread *)

(** The buffer a stream holds after a sequence of calls that respects the
    contract of section 3 of the spec (a dequeue only when nothing is held,
    a queue only of the buffer held); [None] when the sequence breaks it. *)
Fixpoint discipline (held : option pw_buffer) (ops : list stream_op)
    : option (option pw_buffer) :=
  match ops with
  | [] => Some held
  | OpDequeue r :: ops => if held is None then discipline r ops else None
  | OpQueue b :: ops => if decide (held = Some b) then discipline None ops else None
  end.

(** What happens on the realtime thread: a call of [capture_process], or
    the daemon changing the buffers that can be dequeued. *)
Inductive rt_action : Type :=
  | Tick
  | Refill (cap play : list pw_buffer).

Definition rt_step (a : rt_action) (d : data) (w : world) : option (data * world) :=
  match a with
  | Tick => capture_process d w
  | Refill cap play =>
      Some (set_playback
              (set_capture d ((λ s, daemon_refill s cap) <$> capture d))
              ((λ s, daemon_refill s play) <$> playback d), w)
  end.

Fixpoint rt_run (acts : list rt_action) (d : data) (w : world) : option (data * world) :=
  match acts with
  | [] => Some (d, w)
  | a :: acts => '(d, w) ← rt_step a d w; rt_run acts d w
  end.

(** What one call of [capture_process] has to do on a stream whose ring is
    [r]: the dequeue and, when it gave a buffer, the queue of that
    buffer. *)
Definition bracket (r : list pw_buffer) : list stream_op :=
  match r with
  | [] => [OpDequeue None]
  | b :: _ => [OpDequeue (Some b); OpQueue b]
  end.

(** What reading options leaves alone, and what it keeps allocated. *)
Definition options_keep (d d' : data) : Prop :=
  loop d' = loop d ∧ capture d' = capture d ∧ playback d' = playback d ∧
  (is_Some (capture_props d) → is_Some (capture_props d')) ∧
  (is_Some (playback_props d) → is_Some (playback_props d')) ∧
  (is_Some (opt_group_name d) → is_Some (opt_group_name d')).

(** A lookup in a dictionary after the writes of lines 291-300, in terms
    of the dictionary [p] before them: the latency (when not zero) and the
    group are the engine's, every other key is as the options left it. *)
Definition engine_lookup (d : data) (p : pw_properties) (key : string) : option string :=
  if bool_decide (key = PW_KEY_NODE_LATENCY ∧ latency d ≠ 0)
  then Some (fmt_u (latency d) +:+ "/" +:+ fmt_u DEFAULT_RATE)
  else if bool_decide (key = PW_KEY_NODE_GROUP ∧ is_Some (opt_group_name d))
  then opt_group_name d
  else pw_properties_get p key.

(** The format both streams are offered: planar float-32, unpositioned,
    [channels] channels (lines 124-128). *)
Definition loopback_params (channels : Z) : list spa_pod :=
  [spa_format_audio_raw_build SPA_PARAM_EnumFormat
     (SPA_AUDIO_INFO_RAW_INIT SPA_AUDIO_FLAG_UNPOSITIONED
        SPA_AUDIO_FORMAT_F32P channels)].

(** [struct data] when [setup_streams] is called, from its value [d] after
    the options are read, in a run that starts. *)
Definition started (d : data) : data :=
  set_core (main_props (set_context (set_loop d (Some (MainLoop false))) true)) true.

Definition is_overlay (c : opt) : bool :=
  match c with
  | OptCaptureProps _ | OptPlaybackProps _ => true
  | _ => false
  end.

(** A run in which every constructor and both connects succeed. *)
Definition demo_env (evs : list loop_event) : env :=
  Env "pw-loopback" 4242 (Some "pw-loopback") true true true true true
      None None 0 0 evs.

(** A run in which the daemon refuses the capture stream's connect with
    [-ENOENT], and [SIGINT] ends the loop. *)
Definition refused_connect_env : env :=
  Env "pw-loopback" 4242 None true true true true true
      None None (-2) 0 [SignalEvent SIGINT].

(** Two outcomes that differ at most in [opt_channel_map]. *)
Definition same_outcome (o1 o2 : outcome) : Prop :=
  exit_code o1 = exit_code o2 ∧ setup_result o1 = setup_result o2 ∧
  final_world o1 = final_world o2 ∧
  ∃ m, final o1 = set_opt_channel_map (final o2) m.

(** A string between double quotes. *)
Definition quoted (s : string) : string := String dquote (s +:+ String dquote "").

(** The [sink_properties] of a dictionary, if any, do not set [key]. *)
Definition sink_properties_skip `{PulseServer} (p : pw_properties) (key : string) : Prop :=
  ∀ str, pw_properties_get p "sink_properties" = Some str →
         ∀ kv, kv ∈ add_props_items str → kv.1 ≠ key.

(** Two streams with given rings and two descriptors over sample memory
    that is not silent. *)
Definition demo_stream (name : string) (r : list pw_buffer) : pw_stream :=
  Stream name [] false None r [].

Definition demo_data (cap play : list pw_buffer) : data :=
  set_playback
    (set_capture data_zero (Some (demo_stream "loopback capture" cap)))
    (Some (demo_stream "loopback playback" play)).

Definition demo_world : world :=
  World (<[1 := SpaBuffer [100] 2 4]> (<[2 := SpaBuffer [200] 2 4]> ∅))
        (list_to_map ((λ a, (a, 7)) <$> seqZ 100 8) ∪
         list_to_map ((λ a, (a, 9)) <$> seqZ 200 8))
        [].



(** [struct data] after the options, in a run that reads them all. *)
Definition options_read `{PipewireLib} `{Build} (e : env) (opts : list opt) : data :=
  match getopt_loop opts (main_init e) with
  | inr d => d
  | inl _ => data_zero
  end.

(** ** Options and events, by what they do *)

(** The options at which [main] returns. *)
Definition returns_early (c : opt) : bool :=
  match c with
  | OptHelp | OptVersion | OptUnknown => true
  | _ => false
  end.

Definition is_group_opt (c : opt) : bool :=
  match c with
  | OptGroup _ => true
  | _ => false
  end.

Definition is_channels_opt (c : opt) : bool :=
  match c with
  | OptChannels _ => true
  | _ => false
  end.

Definition is_core_error (ev : loop_event) : bool :=
  match ev with
  | CoreErrorEvent _ _ _ _ => true
  | SignalEvent _ => false
  end.

(** An event after which the loop still runs: a signal other than
    [SIGINT] and [SIGTERM], or an error that is not [EPIPE] on the core. *)
Definition keeps_running (ev : loop_event) : Prop :=
  match ev with
  | SignalEvent sig => sig ≠ SIGINT ∧ sig ≠ SIGTERM
  | CoreErrorEvent id seq res message => ¬ (id = PW_ID_CORE ∧ res = - EPIPE)
  end.

(** Every constructor [main] calls before [setup_streams] succeeds. *)
Definition constructors_ok (e : env) : bool :=
  capture_props_new_ok e && playback_props_new_ok e && main_loop_new_ok e
  && context_new_ok e && context_connect_ok e.

(** The warnings one call of [capture_process] logs for rings [cap] and
    [play]. *)
Definition tick_warnings (cap play : list pw_buffer) : list (log_level * string) :=
  (if cap is [] then [(LogWarn, "out of capture buffers: %m")] else []) ++
  (if play is [] then [(LogWarn, "out of playback buffers: %m")] else []).

(** ** The null sink: reference forms *)

(** The names of the positions [ids], separated by commas, for the
    positions from index [i] on: what lines 177-184 are to build. *)
Fixpoint joined `{PulseServer} (i : nat) (ids : list Z) : string :=
  match ids with
  | [] => ""
  | id :: rest =>
      (if bool_decide (i = 0%nat) then "" else ",") +:+ channel_id2name id
      +:+ joined (S i) rest
  end.

(** The positions a channel map holds: its first [channels] entries. *)
Definition map_positions (m : channel_map) : list Z :=
  (λ i, map m !!! i) <$> seq 0 (Z.to_nat (map_channels m)).

(** The keys of the dictionary that lines 147-203 read or write. *)
Definition null_sink_managed : list string :=
  ["channels"; "rate"; "channel_map"; "device.description";
   SPA_KEY_AUDIO_CHANNELS; SPA_KEY_AUDIO_RATE; SPA_KEY_AUDIO_POSITION;
   PW_KEY_MEDIA_CLASS; PW_KEY_NODE_DESCRIPTION; PW_KEY_FACTORY_NAME;
   PW_KEY_OBJECT_LINGER].

(** The text of [node.description] when no [device.description] is given
    (lines 197-200). *)
Definition default_description (name class : string) : string :=
  name +:+ (if decide (name = "") then "" else " ")
  +:+ class +:+ (if decide (class = "") then "" else " ") +:+ "sink".

(** The same loop (lines 177-184), seen as writes into the buffer of
    [map.channels * 6] bytes that [alloca] gave: the offset at which
    [snprintf (p, 6, ...)] writes, and the number of bytes it stores (five
    characters at most, and the terminator); [p] advances by the full
    length of the item. *)
Fixpoint position_writes `{PulseServer} (i : nat) (ids : list Z) (p : nat)
    : list (nat * nat) :=
  match ids with
  | [] => []
  | id :: rest =>
      let item := (if bool_decide (i = 0%nat) then "" else ",") +:+ channel_id2name id in
      (p, (String.length item `min` 5) + 1)%nat
        :: position_writes (S i) rest (p + String.length item)
  end.

(** ** The module's life: [load], the proxy's events, [unload] *)

(** What lines 25-99 reach of a module: the [struct module] itself (with
    the [global_id] of its [struct module_null_sink_data], as above), and
    the [proxy] and the [listener] of that data.  [proxy] is the handle
    [pw_core_create_object] returned, [None] for [NULL]; [listener] tells
    whether the hook is in a listener list. *)
Record sink_state : Type := SinkState {
  sink_module : module;
  proxy : option Z;
  listener : bool
}.

(** The calls into libpipewire and into the module loader, as made. *)
Inductive pulse_call : Type :=
  | CoreCreateObject (factory : string) (dict : option pw_properties)
  | ProxyAddListener (p : Z)
  | ProxyDestroy (p : option Z)
  | HookRemove
  | RegistryDestroy (id : Z)
  | EmitLoaded (res : Z).

Definition set_global_id (s : sink_state) (id : Z) : sink_state :=
  SinkState (ModuleRec (props (sink_module s)) id) (proxy s) (listener s).

Definition module_null_sink_proxy_removed (s : sink_state)
    : sink_state * list pulse_call :=
  (s, [ProxyDestroy (proxy s)]).

Definition module_null_sink_proxy_destroy (s : sink_state)
    : sink_state * list pulse_call :=
  (SinkState (sink_module s) None false, [HookRemove]).

Definition module_null_sink_proxy_bound (s : sink_state) (id : Z)
    : sink_state * list pulse_call :=
  (set_global_id s id, [EmitLoaded 0]).

Definition module_null_sink_proxy_error (s : sink_state) (seq res : Z)
    (message : string) : sink_state * list pulse_call :=
  (s, [ProxyDestroy (proxy s)]).

(** [created] is what [pw_core_create_object] gives: [inr] a proxy, or
    [inl] the [errno] of its failure. *)
Definition module_null_sink_load (created : Z + Z) (s : sink_state)
    : sink_state * Z * list pulse_call :=
  let call := CoreCreateObject "adapter" (props (sink_module s)) in
  match created with
  | inl errno => (SinkState (sink_module s) None (listener s), - errno, [call])
  | inr p => (SinkState (sink_module s) (Some p) true, 0, [call; ProxyAddListener p])
  end.

Definition module_null_sink_unload (s : sink_state)
    : sink_state * Z * list pulse_call :=
  (s, 0,
   (if proxy s is Some p then [ProxyDestroy (Some p)] else []) ++
   (if bool_decide (global_id (sink_module s) ≠ SPA_ID_INVALID)
    then [RegistryDestroy (global_id (sink_module s))] else [])).

(** The events of the proxy, handled as [proxy_events] binds them. *)
Inductive proxy_event : Type :=
  | ProxyRemoved
  | ProxyBound (id : Z)
  | ProxyError (seq res : Z) (message : string)
  | ProxyDestroyed.

Definition proxy_dispatch (ev : proxy_event) (s : sink_state)
    : sink_state * list pulse_call :=
  match ev with
  | ProxyRemoved => module_null_sink_proxy_removed s
  | ProxyBound id => module_null_sink_proxy_bound s id
  | ProxyError seq res message => module_null_sink_proxy_error s seq res message
  | ProxyDestroyed => module_null_sink_proxy_destroy s
  end.

Definition proxy_events_run (evs : list proxy_event) (s : sink_state) : sink_state :=
  foldl (λ s ev, (proxy_dispatch ev s).1) s evs.

(** The id of the last [bound] event, and whether there was a [destroy]
    event. *)
Definition last_bound (evs : list proxy_event) : option Z :=
  foldl (λ acc ev, if ev is ProxyBound id then Some id else acc) None evs.

Definition destroyed (evs : list proxy_event) : bool :=
  existsb (λ ev, if ev is ProxyDestroyed then true else false) evs.

(** * [json.h]: the tree printer *)

(** Modelled from the source's use of them: [struct ot_node], its type
    tags, its flags and [ot_node_iterate] are declared in [ot.h], which is
    not among the sources at hand.  A node has an optional key [k] and a
    value; a container's children are what [ot_node_iterate] yields for
    [index = 0, 1, ...]; the two flags [ot_json_dump2] tests are booleans.
    A float or a double carries the text [printf]'s [%f] gives for it; a
    node of a type the [switch] does not list is [VOther]. *)
Inductive ot_scalar : Type :=
  | VNull
  | VBool (b : bool)
  | VInt (i : Z)
  | VLong (l : Z)
  | VFloat (text : string)
  | VDouble (text : string)
  | VString (s : string)
  | VOther.

#[warnings="-register-all"] Inductive ot_node : Type :=
  | OtScalar (k : option string) (v : ot_scalar)
  | OtContainer (k : option string) (array flat costly : bool) (subs : list ot_node).

Record ot_json_ctx : Type := JsonCtx {
  l0 : Z;
  l1 : Z;
  expensive : Z;
  cutoff : Z;
  colors : bool
}.

Definition set_l0 (ctx : ot_json_ctx) (x : Z) : ot_json_ctx :=
  JsonCtx x (l1 ctx) (expensive ctx) (cutoff ctx) (colors ctx).
Definition set_l1 (ctx : ot_json_ctx) (x : Z) : ot_json_ctx :=
  JsonCtx (l0 ctx) x (expensive ctx) (cutoff ctx) (colors ctx).
Definition set_expensive (ctx : ot_json_ctx) (x : Z) : ot_json_ctx :=
  JsonCtx (l0 ctx) (l1 ctx) x (cutoff ctx) (colors ctx).

Definition escape (code : string) : string :=
  String (ascii_of_nat 27) ("[" +:+ code +:+ "m").
Definition newline : string := String (ascii_of_nat 10) "".
Definition dq : string := String dquote "".

Definition NORMAL (ctx : ot_json_ctx) : string := if colors ctx then escape "0" else "".
Definition NUL (ctx : ot_json_ctx) : string := if colors ctx then escape "95" else "".
Definition BOOL (ctx : ot_json_ctx) : string := if colors ctx then escape "95" else "".
Definition NUMBER (ctx : ot_json_ctx) : string := if colors ctx then escape "96" else "".
Definition STRING (ctx : ot_json_ctx) : string := if colors ctx then escape "92" else "".
Definition KEY (ctx : ot_json_ctx) : string := if colors ctx then escape "94" else "".

Fixpoint spaces (n : nat) : string :=
  match n with
  | O => ""
  | S n => String " " (spaces n)
  end.

(** [IND (fmt, level, ...)]: [printf ("%*s" fmt, level * 2, "", ...)]; a
    negative width pads as its absolute value does. *)
Definition IND (level : Z) (text : string) : string :=
  spaces (Z.to_nat (Z.abs (level * 2))) +:+ text.

(** What the [switch] prints for a value that is not a container, after
    the indentation; nothing at all for a type it does not list. *)
Definition scalar_text (ctx : ot_json_ctx) (v : ot_scalar) : option string :=
  match v with
  | VNull => Some (NUL ctx +:+ "null" +:+ NORMAL ctx)
  | VBool b => Some (BOOL ctx +:+ (if b then "true" else "false") +:+ NORMAL ctx)
  | VInt i => Some (NUMBER ctx +:+ pretty i +:+ NORMAL ctx)
  | VLong l => Some (NUMBER ctx +:+ pretty l +:+ NORMAL ctx)
  | VFloat text => Some (NUMBER ctx +:+ text +:+ NORMAL ctx)
  | VDouble text => Some (NUMBER ctx +:+ text +:+ NORMAL ctx)
  | VString s => Some (STRING ctx +:+ dq +:+ s +:+ dq +:+ NORMAL ctx)
  | VOther => None
  end.

(** Lines 56-59: the key, after which the value is not indented. *)
Definition key_text (ctx : ot_json_ctx) (k : option string) : string * Z :=
  match k with
  | Some key => (IND (l0 ctx) (KEY ctx +:+ dq +:+ key +:+ dq +:+ NORMAL ctx +:+ ": "), 0)
  | None => ("", l0 ctx)
  end.

Section DumpSubs.

Variable dump : ot_node → ot_json_ctx → string * ot_json_ctx.

(** The [while] loop of lines 105-113: [i] children are printed already,
    [out] is what the container has printed so far. *)
Fixpoint dump_subs (subs : list ot_node) (i : Z) (out : string) (ctx : ot_json_ctx)
    : Z * string * ot_json_ctx :=
  match subs with
  | [] => (i, out, ctx)
  | sub :: rest =>
      let out := out +:+ (if bool_decide (0 < i) then "," else "") +:+ " "
                     +:+ (if bool_decide (l0 ctx ≠ 0) then newline else "") in
      let '(text, ctx) := dump sub ctx in
      dump_subs rest (i + 1) (out +:+ text) ctx
  end.

End DumpSubs.

(** The text printed, and the context afterwards (the function returns
    0). *)
Fixpoint ot_json_dump2 (node : ot_node) (ctx : ot_json_ctx) : string * ot_json_ctx :=
  match node with
  | OtScalar k v =>
      let '(out, level) := key_text ctx k in
      match scalar_text ctx v with
      | Some text => (out +:+ IND level text, ctx)
      | None => (out, ctx)
      end
  | OtContainer k array flat costly subs =>
      let level1 := l1 ctx in
      let '(out, level) := key_text ctx k in
      let open_sep := if array then "[" else "{" in
      let close_sep := if array then "]" else "}" in
      let out := out +:+ IND level open_sep in
      let ctx := if costly then set_expensive ctx (expensive ctx + 1) else ctx in
      let '(i, out, ctx) :=
        if bool_decide (expensive ctx ≤ cutoff ctx) then
          let ctx := set_l1 ctx (l1 ctx + 1) in
          let level := l0 ctx in
          let ctx := set_l0 ctx (if flat then 0 else l1 ctx) in
          let '(i, out, ctx) := dump_subs ot_json_dump2 subs 0 out ctx in
          let ctx := set_l1 ctx (l1 ctx - 1) in
          (i, out, set_l0 ctx level)
        else (0, out, ctx) in
      let ctx := if costly then set_expensive ctx (expensive ctx - 1) else ctx in
      if negb flat && bool_decide (0 < i)
      then (out +:+ newline +:+ IND level1 close_sep, ctx)
      else (out +:+ (if bool_decide (0 < i) then " " else "") +:+ close_sep, ctx)
  end.

(** [ot_json_dump]: colours when the output is a terminal. *)
Definition ot_json_dump (isatty : bool) (node : ot_node) (cutoff : Z) : string :=
  (ot_json_dump2 node (JsonCtx 0 0 0 cutoff isatty)).1.

(** The opening and the closing character of a container. *)
Definition open_sep (array : bool) : string := if array then "[" else "{".
Definition close_sep (array : bool) : string := if array then "]" else "}".

(** The texts of values that are not containers, as [scalar_text] gives
    them (nothing for a type the [switch] does not list). *)
Definition scalar_texts (ctx : ot_json_ctx) (vs : list ot_scalar) : list string :=
  (λ v, default "" (scalar_text ctx v)) <$> vs.

(** The parameters with one name of five characters, as the auxiliary
    channels of the pulse server have: position 9 is [AUX10]. *)
Definition aux_pulse_server : PulseServer :=
  {| add_props_items := parse_bag;
     channel_map_parse := spec_channel_map_parse;
     channel_id2name id :=
       if bool_decide (id = 9) then "AUX10"
       else default "UNK" (position_names !! Z.to_nat id);
     PACKAGE_VERSION := "0.3" |}.

(** A run in which the context cannot be created. *)
Definition no_context_env : env :=
  Env "pw-loopback" 4242 (Some "pw-loopback") true true true false true
      None None 0 0 [].

(** A run in which the playback stream cannot be created ([ENOMEM]). *)
Definition no_playback_env : env :=
  Env "pw-loopback" 4242 (Some "pw-loopback") true true true true true
      None (Some 12) 0 0 [].

(** Options that name a target for each stream. *)
Definition target_opts : list opt :=
  [OptCapture "source-A"; OptPlayback "sink-B"; OptChannels "1"].

(** Stereo defaults of the pulse server ([FL], [FR]), and allocators that
    succeed. *)
Definition stereo_impl : impl := Impl 2 (ChannelMap 2 [3; 4]).
Definition sink_ok_env : sink_env := SinkEnv true None.

(** An argument whose [sink_properties] set a key again. *)
Definition role_argument : string :=
  "media.role=a sink_properties=" +:+ quoted "media.role=b ".

(** * Properties *)

Section Dictionary.

Implicit Types (props : pw_properties) (key : string).

Lemma get_app props1 props2 key :
  pw_properties_get (props1 ++ props2) key =
  match pw_properties_get props1 key with
  | Some v => Some v
  | None => pw_properties_get props2 key
  end.
Proof.
  induction props1 as [|[k v] rest IH]; simpl; [done|].
  by destruct (decide (k = key)).
Qed.

Lemma get_overwrite_eq props key value :
  is_Some (pw_properties_get props key) →
  pw_properties_get (overwrite_item key value props) key = Some value.
Proof.
  induction props as [|[k v] rest IH]; simpl.
  - by intros [? ?].
  - destruct (decide (k = key)) as [->|Hne]; simpl.
    + by rewrite decide_True.
    + rewrite decide_False by done. exact IH.
Qed.

Lemma get_overwrite_ne props key key' value :
  key ≠ key' →
  pw_properties_get (overwrite_item key value props) key' = pw_properties_get props key'.
Proof.
  intros Hne. induction props as [|[k v] rest IH]; simpl; [done|].
  destruct (decide (k = key)) as [->|Hk]; simpl.
  - by rewrite !decide_False.
  - by rewrite IH.
Qed.

Lemma get_remove_eq props key :
  pw_properties_get (remove_item key props) key = None.
Proof.
  induction props as [|[k v] rest IH]; simpl; [done|].
  destruct (decide (k = key)); simpl; [done|]. by rewrite decide_False.
Qed.

Lemma get_remove_ne props key key' :
  key ≠ key' →
  pw_properties_get (remove_item key props) key' = pw_properties_get props key'.
Proof.
  intros Hne. induction props as [|[k v] rest IH]; simpl; [done|].
  destruct (decide (k = key)) as [->|Hk]; simpl.
  - by rewrite decide_False.
  - by rewrite IH.
Qed.

Lemma get_set_eq props key value :
  pw_properties_get (pw_properties_set props key value) key = value.
Proof.
  destruct value as [v|]; simpl; [|apply get_remove_eq].
  destruct (pw_properties_get props key) eqn:Hget.
  - apply get_overwrite_eq. by rewrite Hget.
  - rewrite get_app, Hget. simpl. by rewrite decide_True.
Qed.

Lemma get_set_ne props key key' value :
  key ≠ key' →
  pw_properties_get (pw_properties_set props key value) key' =
  pw_properties_get props key'.
Proof.
  intros Hne. destruct value as [v|]; simpl; [|by apply get_remove_ne].
  destruct (pw_properties_get props key) eqn:Hget.
  - by apply get_overwrite_ne.
  - rewrite get_app. simpl. rewrite decide_False by done.
    by destruct (pw_properties_get props key').
Qed.

Lemma get_set props key key' value :
  pw_properties_get (pw_properties_set props key value) key' =
  if decide (key = key') then value else pw_properties_get props key'.
Proof.
  destruct (decide (key = key')) as [->|Hne];
    [apply get_set_eq | by apply get_set_ne].
Qed.

(** Merging a bag: a key the bag mentions takes the bag's last word on
    it, the others keep their value. *)
Lemma get_merge_items items props key :
  pw_properties_get (merge_items props items) key =
  match overlay_value items key with
  | Some value => value
  | None => pw_properties_get props key
  end.
Proof.
  unfold merge_items, overlay_value.
  induction items as [|[k v] items IH] using rev_ind; [done|].
  rewrite !foldl_app. simpl. rewrite get_set.
  destruct (decide (k = key)); [done | exact IH].
Qed.

Lemma overlay_value_absent items key :
  (∀ kv, kv ∈ items → kv.1 ≠ key) → overlay_value items key = None.
Proof.
  unfold overlay_value.
  induction items as [|[k v] items IH] using rev_ind; [done|].
  intros Hall. rewrite foldl_app. simpl.
  rewrite decide_False.
  - apply IH. intros kv Hin. apply Hall. set_solver.
  - apply (Hall (k, v)). set_solver.
Qed.

End Dictionary.

Section Realtime.

Implicit Types (d : data) (w : world) (cs ps : pw_stream).

Lemma capture_process_streams d w cs ps :
  capture d = Some cs → playback d = Some ps →
  ∃ d' w' cs' ps',
    capture_process d w = Some (d', w') ∧
    capture d' = Some cs' ∧ playback d' = Some ps' ∧
    history cs' = history cs ++ bracket (ring cs) ∧
    history ps' = history ps ++ bracket (ring ps) ∧
    ring cs' = tail (ring cs) ∧ ring ps' = tail (ring ps).
Proof.
  intros Hc Hp. unfold capture_process. rewrite Hc, Hp. simpl.
  unfold pw_stream_dequeue_buffer.
  destruct (ring cs) as [|i ri], (ring ps) as [|o ro]; simpl;
    eexists _, _, _, _; do 3 (split; [reflexivity|]); simpl;
    rewrite <- ?app_assoc; done.
Qed.

Lemma discipline_app held ops1 ops2 mid :
  discipline held ops1 = Some mid →
  discipline held (ops1 ++ ops2) = discipline mid ops2.
Proof.
  revert held. induction ops1 as [|op ops1 IH]; simpl; intros held Hd.
  - by injection Hd as ->.
  - destruct op as [r|b].
    + destruct held; [done|]. by apply IH.
    + destruct (decide (held = Some b)); [|done]. by apply IH.
Qed.

Lemma discipline_bracket (r : list pw_buffer) :
  discipline None (bracket r) = Some None.
Proof. destruct r as [|b r]; simpl; [done|]. by rewrite decide_True. Qed.

(** C1.  In [capture_process], when both dequeues succeed the descriptor
    of the capture buffer (data pointer vector, frame count, stride) is
    assigned to the descriptor of the playback buffer and no sample byte
    is written; when a dequeue fails no descriptor is written either. *)
Theorem capture_process_forwards_descriptor d w cs ps :
  capture d = Some cs → playback d = Some ps →
  ∃ d' w',
    capture_process d w = Some (d', w') ∧
    samples w' = samples w ∧
    match ring cs, ring ps with
    | i :: _, o :: _ =>
        descriptors w' = <[buffer o := descriptors w !!! buffer i]> (descriptors w) ∧
        descriptors w' !! buffer o = Some (descriptors w !!! buffer i)
    | _, _ => descriptors w' = descriptors w
    end.
Proof.
  intros Hc Hp. unfold capture_process. rewrite Hc, Hp. simpl.
  unfold pw_stream_dequeue_buffer.
  destruct (ring cs) as [|i ri], (ring ps) as [|o ro]; simpl;
    eexists _, _; (split; [reflexivity|]); simpl; try done.
  split; [done|]. split; [done|]. apply lookup_insert_eq.
Qed.

(** C2.  A call of [capture_process] dequeues once from each stream and
    queues back exactly the buffer a successful dequeue gave, before it
    returns; a failed dequeue queues nothing.  Hence along any sequence
    of calls, with the daemon refilling the rings in between, each
    stream's calls respect the contract and no buffer is held when a
    call returns. *)
Theorem capture_process_requeues_once (acts : list rt_action) d w cs ps :
  capture d = Some cs → playback d = Some ps →
  discipline None (history cs) = Some None →
  discipline None (history ps) = Some None →
  (∃ d1 w1 cs1 ps1,
      capture_process d w = Some (d1, w1) ∧
      capture d1 = Some cs1 ∧ playback d1 = Some ps1 ∧
      history cs1 = history cs ++ bracket (ring cs) ∧
      history ps1 = history ps ++ bracket (ring ps)) ∧
  (∃ d' w' cs' ps',
      rt_run acts d w = Some (d', w') ∧
      capture d' = Some cs' ∧ playback d' = Some ps' ∧
      discipline None (history cs') = Some None ∧
      discipline None (history ps') = Some None).
Proof.
  intros Hc Hp Hdc Hdp. split.
  - destruct (capture_process_streams d w cs ps Hc Hp)
      as (d1 & w1 & cs1 & ps1 & ? & ? & ? & ? & ? & _).
    by exists d1, w1, cs1, ps1.
  - revert d w cs ps Hc Hp Hdc Hdp.
    induction acts as [|a acts IH]; intros d w cs ps Hc Hp Hdc Hdp; simpl.
    + by exists d, w, cs, ps.
    + destruct a as [|cap play]; simpl.
      * destruct (capture_process_streams d w cs ps Hc Hp)
          as (d1 & w1 & cs1 & ps1 & -> & Hc1 & Hp1 & Hh1 & Hh2 & _).
        simpl. apply (IH d1 w1 cs1 ps1 Hc1 Hp1).
        -- rewrite Hh1, (discipline_app _ _ _ _ Hdc). apply discipline_bracket.
        -- rewrite Hh2, (discipline_app _ _ _ _ Hdp). apply discipline_bracket.
      * rewrite Hc, Hp. simpl.
        by apply (IH _ w (daemon_refill cs cap) (daemon_refill ps play)).
Qed.

(** C4, as the code has it.  When only the playback dequeue succeeds,
    [capture_process] logs the capture underrun and queues the playback
    buffer back as it was dequeued: its descriptor and the sample memory
    are not written. *)
Theorem capture_process_playback_only_untouched d w cs ps o rest :
  capture d = Some cs → playback d = Some ps →
  ring cs = [] → ring ps = o :: rest →
  ∃ d' w' ps',
    capture_process d w = Some (d', w') ∧
    playback d' = Some ps' ∧
    history ps' = history ps ++ [OpDequeue (Some o); OpQueue o] ∧
    descriptors w' = descriptors w ∧
    samples w' = samples w ∧
    log w' = log w ++ [(LogWarn, "out of capture buffers: %m")].
Proof.
  intros Hc Hp Hrc Hrp. unfold capture_process. rewrite Hc, Hp. simpl.
  unfold pw_stream_dequeue_buffer. rewrite Hrc, Hrp. simpl.
  eexists _, _, _. do 2 (split; [reflexivity|]). simpl.
  rewrite <- app_assoc. done.
Qed.

End Realtime.

Section Startup.

Context `{PipewireLib} `{Build}.

Implicit Types (d : data) (w : world) (e : env) (opts : list opt).

(** *** The option loop *)

Lemma handle_opt_keeps c d d' : handle_opt c d = inr d' → options_keep d d'.
Proof.
  unfold options_keep.
  destruct c; simpl; intros [= <-]; simpl; repeat split; try done;
    intros [p ->]; simpl; eauto.
Qed.

Lemma getopt_loop_keeps opts d d' : getopt_loop opts d = inr d' → options_keep d d'.
Proof.
  revert d. induction opts as [|c opts IH]; simpl; intros d Hg.
  - injection Hg as <-. unfold options_keep. tauto.
  - destruct (handle_opt c d) as [code|d1] eqn:Hc; [done|].
    apply handle_opt_keeps in Hc. apply IH in Hg.
    unfold options_keep in *.
    destruct Hc as (? & ? & ? & ? & ? & ?), Hg as (? & ? & ? & ? & ? & ?).
    repeat split; try congruence; auto.
Qed.

Lemma getopt_loop_app opts1 opts2 d d' :
  getopt_loop (opts1 ++ opts2) d = inr d' ↔
  ∃ d1, getopt_loop opts1 d = inr d1 ∧ getopt_loop opts2 d1 = inr d'.
Proof.
  revert d. induction opts1 as [|c opts1 IH]; simpl; intros d.
  - split; [eauto|]. by intros (d1 & [= <-] & ?).
  - destruct (handle_opt c d) as [code|d1]; [|apply IH].
    split; [done|]. by intros (? & ? & ?).
Qed.

Lemma getopt_loop_capture_props opts d d' :
  Forall (λ c, writes_capture_props c = false) opts →
  getopt_loop opts d = inr d' → capture_props d' = capture_props d.
Proof.
  intros Hall. revert d.
  induction Hall as [|c opts Hc _ IH]; simpl; intros d Hg.
  - by injection Hg as <-.
  - destruct (handle_opt c d) as [code|d1] eqn:Hh; [done|].
    rewrite (IH _ Hg). by destruct c; simplify_eq/=.
Qed.

Lemma getopt_loop_playback_props opts d d' :
  Forall (λ c, writes_playback_props c = false) opts →
  getopt_loop opts d = inr d' → playback_props d' = playback_props d.
Proof.
  intros Hall. revert d.
  induction Hall as [|c opts Hc _ IH]; simpl; intros d Hg.
  - by injection Hg as <-.
  - destruct (handle_opt c d) as [code|d1] eqn:Hh; [done|].
    rewrite (IH _ Hg). by destruct c; simplify_eq/=.
Qed.

Lemma getopt_loop_latency opts d d' :
  Forall (λ c, is_latency_opt c = false) opts →
  getopt_loop opts d = inr d' → latency d' = latency d.
Proof.
  intros Hall. revert d.
  induction Hall as [|c opts Hc _ IH]; simpl; intros d Hg.
  - by injection Hg as <-.
  - destruct (handle_opt c d) as [code|d1] eqn:Hh; [done|].
    rewrite (IH _ Hg). by destruct c; simplify_eq/=.
Qed.

(** *** The defaults *)

Lemma main_init_streams e :
  loop (main_init e) = None ∧ capture (main_init e) = None ∧
  playback (main_init e) = None.
Proof. unfold main_init. by case_bool_decide. Qed.

Lemma main_init_group e : is_Some (opt_group_name (main_init e)).
Proof.
  unfold main_init. rewrite bool_decide_true; [simpl; eauto|].
  destruct (argv0 e); simpl; lia.
Qed.

Lemma main_init_props e :
  capture_props_new_ok e = true → playback_props_new_ok e = true →
  capture_props (main_init e) = Some [] ∧ playback_props (main_init e) = Some [].
Proof. unfold main_init. intros -> ->. by case_bool_decide. Qed.

Lemma starts_keeps e opts d :
  starts e opts d →
  loop d = None ∧ capture d = None ∧ playback d = None ∧
  is_Some (capture_props d) ∧ is_Some (playback_props d) ∧
  is_Some (opt_group_name d).
Proof.
  intros (Hc & Hp & _ & _ & _ & Hg).
  apply getopt_loop_keeps in Hg. unfold options_keep in Hg.
  destruct (main_init_streams e) as (El & Ec & Ep).
  destruct (main_init_props e Hc Hp) as (Ecp & Epp).
  pose proof (main_init_group e).
  rewrite El, Ec, Ep, Ecp, Epp in Hg.
  destruct Hg as (? & ? & ? & ? & ? & ?). repeat split; eauto.
Qed.

(** *** The engine's writes *)

Lemma main_props_fields d :
  loop (main_props d) = loop d ∧ context (main_props d) = context d ∧
  core (main_props d) = core d ∧ channels (main_props d) = channels d ∧
  latency (main_props d) = latency d ∧ capture (main_props d) = capture d ∧
  playback (main_props d) = playback d ∧
  opt_group_name (main_props d) = opt_group_name d.
Proof.
  unfold main_props. destruct (opt_group_name d) eqn:Hg; simpl;
    case_bool_decide; simpl; by rewrite ?Hg.
Qed.

Local Opaque pw_properties_set.

Lemma main_props_capture d p :
  capture_props d = Some p →
  ∃ p', capture_props (main_props d) = Some p' ∧
        ∀ key, pw_properties_get p' key = engine_lookup d p key.
Proof.
  intros Hp. unfold main_props, engine_lookup.
  destruct (opt_group_name d) as [g|] eqn:Hg; simpl;
    case_bool_decide as Hl; simpl; rewrite ?Hp; simpl;
    eexists; (split; [reflexivity|]); intros key;
    unfold pw_properties_setf; rewrite ?get_set;
    repeat (destruct (decide _)); subst;
    repeat (rewrite bool_decide_true by (split; eauto));
    repeat (rewrite bool_decide_false by (intros [? ?]; first [done | by eapply is_Some_None]));
    done.
Qed.

Lemma main_props_playback d p :
  playback_props d = Some p →
  ∃ p', playback_props (main_props d) = Some p' ∧
        ∀ key, pw_properties_get p' key = engine_lookup d p key.
Proof.
  intros Hp. unfold main_props, engine_lookup.
  destruct (opt_group_name d) as [g|] eqn:Hg; simpl;
    case_bool_decide as Hl; simpl; rewrite ?Hp; simpl;
    eexists; (split; [reflexivity|]); intros key;
    unfold pw_properties_setf; rewrite ?get_set;
    repeat (destruct (decide _)); subst;
    repeat (rewrite bool_decide_true by (split; eauto));
    repeat (rewrite bool_decide_false by (intros [? ?]; first [done | by eapply is_Some_None]));
    done.
Qed.

Local Transparent pw_properties_set.

End Startup.

Section Streams.

Implicit Types (d : data) (w : world) (e : env).

Lemma setup_streams_fields e d :
  loop (setup_streams e d).1 = loop d ∧
  channels (setup_streams e d).1 = channels d.
Proof.
  unfold setup_streams, pw_stream_new.
  destruct (capture_new_fails e), (playback_new_fails e); simpl; try done;
    repeat case_bool_decide; done.
Qed.

Lemma setup_streams_capture e d cs :
  capture (setup_streams e d).1 = Some cs →
  stream_props cs = default pw_properties_new (capture_props d) ∧
  (playback_new_fails e = None →
   connected cs = Some (ConnectCall PW_DIRECTION_INPUT PW_ID_ANY connect_flags
                          (loopback_params (channels d)))) ∧
  (∀ cc, connected cs = Some cc →
         cc = ConnectCall PW_DIRECTION_INPUT PW_ID_ANY connect_flags
                (loopback_params (channels d))).
Proof.
  unfold setup_streams, pw_stream_new.
  destruct (capture_new_fails e), (playback_new_fails e); simpl; try done;
    repeat case_bool_decide; simpl; intros [= <-]; simpl;
    repeat split; try done; by intros ? [= <-].
Qed.

Lemma setup_streams_playback e d ps :
  playback d = None →
  playback (setup_streams e d).1 = Some ps →
  stream_props ps = default pw_properties_new (playback_props d) ∧
  playback_new_fails e = None ∧
  (0 ≤ capture_connect_res e →
   connected ps = Some (ConnectCall PW_DIRECTION_OUTPUT PW_ID_ANY connect_flags
                          (loopback_params (channels d)))) ∧
  (∀ pc, connected ps = Some pc →
         pc = ConnectCall PW_DIRECTION_OUTPUT PW_ID_ANY connect_flags
                (loopback_params (channels d))).
Proof.
  intros Hnone. unfold setup_streams, pw_stream_new.
  destruct (capture_new_fails e), (playback_new_fails e); simpl;
    rewrite ?Hnone; try done;
    repeat case_bool_decide; simpl; intros [= <-]; simpl;
    repeat split; try done; try lia; by intros ? [= <-].
Qed.

Lemma setup_streams_playback_refused e d ps :
  playback d = None →
  playback (setup_streams e d).1 = Some ps →
  capture_connect_res e < 0 → connected ps = None.
Proof.
  intros Hnone. unfold setup_streams, pw_stream_new.
  destruct (capture_new_fails e), (playback_new_fails e); simpl;
    rewrite ?Hnone; try done;
    repeat case_bool_decide; simpl; intros [= <-]; simpl; try done; lia.
Qed.

Lemma dispatch_streams ev d w :
  capture (dispatch ev d w).1 = capture d ∧
  playback (dispatch ev d w).1 = playback d ∧
  channels (dispatch ev d w).1 = channels d.
Proof.
  destruct ev as [sig|id seq res msg]; simpl; unfold on_core_error;
    repeat case_match; done.
Qed.

Lemma iterate_streams evs d w d' w' :
  iterate evs d w = Some (d', w') →
  capture d' = capture d ∧ playback d' = playback d ∧ channels d' = channels d.
Proof.
  revert d w. induction evs as [|ev evs IH]; simpl; intros d w; [done|].
  pose proof (dispatch_streams ev d w) as (Ec & Ep & Ech).
  destruct (dispatch ev d w) as [d1 w1]; simpl in *.
  destruct (is_running d1).
  - intros Hit. apply IH in Hit. destruct Hit as (-> & -> & ->). done.
  - by intros [= <- <-].
Qed.

Lemma main_run_streams e d w :
  capture (final (main_run e d w)) = capture (setup_streams e d).1 ∧
  playback (final (main_run e d w)) = playback (setup_streams e d).1 ∧
  channels (final (main_run e d w)) = channels d.
Proof.
  unfold main_run, pw_main_loop_run.
  pose proof (setup_streams_fields e d) as (_ & Ech).
  destruct (setup_streams e d) as [d1 sres]; simpl in *.
  destruct (iterate _ _ _) as [[d2 w2]|] eqn:Hit; simpl; [|done].
  apply iterate_streams in Hit. simpl in Hit.
  destruct Hit as (-> & -> & ->). done.
Qed.

(** The loop: errors that are not fatal are logged and leave it running. *)
Lemma iterate_other_errors pre rest d w :
  Forall other_core_error pre → is_running d = true →
  ∃ w', iterate (pre ++ rest) d w = iterate rest d w' ∧
        length (log w') = (length (log w) + length pre)%nat ∧
        (rest = [] → iterate (pre ++ rest) d w = None).
Proof.
  intros Hall Hrun. revert w.
  induction Hall as [|ev pre Hev _ IH]; intros w; simpl.
  - exists w. split; [done|]. split; [lia|]. by intros ->.
  - destruct ev as [sig|id seq res msg]; [done|]. simpl in Hev.
    unfold dispatch, on_core_error.
    replace (bool_decide (id = PW_ID_CORE) && bool_decide (res = - EPIPE))
      with false
      by (symmetry; apply andb_false_iff; rewrite !bool_decide_eq_false;
          destruct (decide (id = PW_ID_CORE)); tauto).
    rewrite Hrun.
    destruct (IH (pw_log_error w ("error id:" +:+ fmt_u id +:+ " seq:" +:+ pretty seq
                         +:+ " res:" +:+ pretty res +:+ ": " +:+ msg)))
      as (w' & -> & Hlen & Hnil).
    exists w'. split; [done|]. split; [|done].
    rewrite Hlen. simpl. rewrite length_app. simpl. lia.
Qed.

End Streams.

Section Program.

Context `{PipewireLib} `{Build}.

Implicit Types (d : data) (w : world) (e : env) (opts : list opt).

Lemma main_started e opts d :
  starts e opts d → main e opts = main_run e (started d) world_empty.
Proof.
  intros (Hc & Hp & Hl & Hx & Hn & Hg). unfold main, main_start.
  destruct (main_init_props e Hc Hp) as (Ecp & Epp).
  rewrite bool_decide_false by (rewrite Ecp, Epp; intros [?|?]; done).
  rewrite Hg, Hl, Hx. simpl.
  pose proof (main_props_fields
                (set_context (set_loop d (Some (MainLoop false))) true))
    as (_ & _ & _ & _ & _ & _ & _ & _).
  unfold started. rewrite Hn. done.
Qed.

(** Streams exist only in a run that started. *)
Lemma main_streams_started e opts :
  is_Some (capture (final (main e opts))) ∨ is_Some (playback (final (main e opts))) →
  ∃ d, starts e opts d.
Proof.
  unfold main, main_start, starts.
  destruct (main_init_streams e) as (_ & Ec & Ep).
  case_bool_decide as Hprops.
  { cbn [final]. rewrite Ec, Ep. intros [[? ?]|[? ?]]; done. }
  destruct (getopt_loop opts (main_init e)) as [code|d] eqn:Hg.
  { cbn [final]. rewrite Ec, Ep. intros [[? ?]|[? ?]]; done. }
  pose proof (getopt_loop_keeps _ _ _ Hg) as (_ & Ec' & Ep' & _).
  rewrite Ec in Ec'. rewrite Ep in Ep'.
  assert (capture_props_new_ok e = true ∧ playback_props_new_ok e = true)
    as [Hc Hp].
  { unfold main_init in Hprops. case_bool_decide; simpl in Hprops;
      destruct (capture_props_new_ok e), (playback_props_new_ok e); try done;
      exfalso; apply Hprops; auto. }
  destruct (main_loop_new_ok e);
    [|simpl; rewrite Ec', Ep'; intros [[? ?]|[? ?]]; done].
  destruct (context_new_ok e);
    [|simpl; rewrite Ec', Ep'; intros [[? ?]|[? ?]]; done].
  destruct (context_connect_ok e).
  - intros _. exists d. done.
  - pose proof (main_props_fields
                  (set_context (set_loop d (Some (MainLoop false))) true))
      as (_ & _ & _ & _ & _ & Ec2 & Ep2 & _).
    simpl. simpl in Ec2, Ep2. rewrite Ec2, Ep2, Ec', Ep'.
    intros [[? ?]|[? ?]]; done.
Qed.

Lemma started_fields d :
  loop (started d) = Some (MainLoop false) ∧
  channels (started d) = channels d ∧
  capture (started d) = capture d ∧ playback (started d) = playback d.
Proof.
  unfold started. simpl.
  pose proof (main_props_fields
                (set_context (set_loop d (Some (MainLoop false))) true))
    as (-> & _ & _ & -> & _ & -> & -> & _).
  done.
Qed.

(** The dictionary each stream is constructed with, key by key. *)
Lemma main_capture_lookup e opts d p cs :
  starts e opts d → capture_props d = Some p →
  capture (final (main e opts)) = Some cs →
  ∀ key, pw_properties_get (stream_props cs) key = engine_lookup d p key.
Proof.
  intros Hs Hp Hcs. rewrite (main_started _ _ _ Hs) in Hcs.
  destruct (main_run_streams e (started d) world_empty) as (Ec & _ & _).
  rewrite Ec in Hcs. apply setup_streams_capture in Hcs as (-> & _).
  destruct (main_props_capture
              (set_context (set_loop d (Some (MainLoop false))) true) p Hp)
    as (p' & Hp' & Hget).
  unfold started. simpl. rewrite Hp'. simpl. exact Hget.
Qed.

Lemma main_playback_lookup e opts d p ps :
  starts e opts d → playback_props d = Some p →
  playback (final (main e opts)) = Some ps →
  ∀ key, pw_properties_get (stream_props ps) key = engine_lookup d p key.
Proof.
  intros Hs Hp Hps. rewrite (main_started _ _ _ Hs) in Hps.
  destruct (main_run_streams e (started d) world_empty) as (_ & Ep & _).
  rewrite Ep in Hps.
  destruct (starts_keeps _ _ _ Hs) as (_ & _ & Hnone & _).
  destruct (started_fields d) as (_ & _ & _ & Epd).
  apply setup_streams_playback in Hps as (-> & _); [|by rewrite Epd].
  destruct (main_props_playback
              (set_context (set_loop d (Some (MainLoop false))) true) p Hp)
    as (p' & Hp' & Hget).
  unfold started. simpl. rewrite Hp'. simpl. exact Hget.
Qed.

Lemma engine_lookup_group d p :
  is_Some (opt_group_name d) →
  engine_lookup d p PW_KEY_NODE_GROUP = opt_group_name d.
Proof.
  intros Hg. unfold engine_lookup.
  rewrite bool_decide_false by (by intros [? _]).
  by rewrite bool_decide_true.
Qed.

Lemma engine_lookup_other d p key :
  key ≠ PW_KEY_NODE_GROUP → (key = PW_KEY_NODE_LATENCY → latency d = 0) →
  engine_lookup d p key = pw_properties_get p key.
Proof.
  intros Hg Hl. unfold engine_lookup.
  rewrite bool_decide_false by (intros [? ?]; auto).
  by rewrite bool_decide_false by (by intros [? _]).
Qed.




(** *** The latency *)

(** Where the product fits an [int] the expression is [ms * 48]. *)
Lemma latency_frames_defined ms :
  - 44739 ≤ ms ≤ 44739 → latency_frames ms = ms * 48.
Proof.
  intros Hms. unfold latency_frames, DEFAULT_RATE, SPA_MSEC_PER_SEC.
  rewrite bool_decide_true by lia.
  replace (ms * 48000) with (ms * 48 * 1000) by lia.
  apply Z.quot_mul. lia.
Qed.

Lemma latency_in_range ms :
  0 ≤ ms ≤ 44739 → to_uint32 (latency_frames ms) = ms * 48.
Proof.
  intros Hms. rewrite latency_frames_defined by lia.
  apply Z.mod_small. lia.
Qed.

Local Opaque pw_properties_set.

Lemma getopt_loop_no_overlay opts d0 d key :
  Forall (λ c, is_overlay c = false) opts →
  getopt_loop opts d0 = inr d → key ≠ PW_KEY_NODE_TARGET →
  (λ p, pw_properties_get p key) <$> capture_props d =
    (λ p, pw_properties_get p key) <$> capture_props d0 ∧
  (λ p, pw_properties_get p key) <$> playback_props d =
    (λ p, pw_properties_get p key) <$> playback_props d0.
Proof.
  intros Hall. revert d0.
  induction Hall as [|c opts Hc _ IH]; simpl; intros d0 Hg Hkey.
  - by injection Hg as <-.
  - destruct (handle_opt c d0) as [code|d1] eqn:Hh; [done|].
    destruct (IH _ Hg Hkey) as (-> & ->).
    destruct c; simplify_eq/=; try done;
      destruct (capture_props d0), (playback_props d0); simpl;
      by rewrite ?get_set_ne.
Qed.

Local Transparent pw_properties_set.

(** C8, as the code has it.  For a latency argument of 0 to 44739
    milliseconds (the range in which [ms * 48000] fits an [int]) the
    frame count is [ms * 48000 / 1000] with nothing lost in the division;
    when it is not zero both streams are constructed with [node.latency]
    set to [frames/48000]; when it is zero the engine writes no
    [node.latency], so that the key is absent unless an overlay gives
    it. *)
Theorem latency_frames_exact e opts pre text post d cs ps ms :
  opts = pre ++ OptLatency text :: post →
  Forall (λ c, is_latency_opt c = false) post →
  atoi text = ms → 0 ≤ ms ≤ 44739 →
  starts e opts d →
  capture (final (main e opts)) = Some cs →
  playback (final (main e opts)) = Some ps →
  latency d * SPA_MSEC_PER_SEC = ms * DEFAULT_RATE ∧
  (latency d ≠ 0 →
   pw_properties_get (stream_props cs) PW_KEY_NODE_LATENCY
     = Some (fmt_u (latency d) +:+ "/48000") ∧
   pw_properties_get (stream_props ps) PW_KEY_NODE_LATENCY
     = Some (fmt_u (latency d) +:+ "/48000")) ∧
  (latency d = 0 →
   (∀ p, capture_props d = Some p →
         pw_properties_get (stream_props cs) PW_KEY_NODE_LATENCY
           = pw_properties_get p PW_KEY_NODE_LATENCY) ∧
   (∀ p, playback_props d = Some p →
         pw_properties_get (stream_props ps) PW_KEY_NODE_LATENCY
           = pw_properties_get p PW_KEY_NODE_LATENCY) ∧
   (Forall (λ c, is_overlay c = false) opts →
    pw_properties_get (stream_props cs) PW_KEY_NODE_LATENCY = None ∧
    pw_properties_get (stream_props ps) PW_KEY_NODE_LATENCY = None)).
Proof.
  intros -> Hpost Hatoi Hms Hs Hcs Hps.
  destruct (starts_keeps _ _ _ Hs) as (_ & _ & _ & [pc Hpc] & [pp Hpp] & Hg).
  pose proof (main_capture_lookup _ _ _ _ _ Hs Hpc Hcs) as Hc.
  pose proof (main_playback_lookup _ _ _ _ _ Hs Hpp Hps) as Hp.
  destruct Hs as (Hcok & Hpok & _ & _ & _ & Hopts).
  assert (latency d = ms * 48) as Hlat.
  { apply getopt_loop_app in Hopts as (d1 & _ & Hrest). simpl in Hrest.
    rewrite (getopt_loop_latency _ _ _ Hpost Hrest). simpl.
    rewrite Hatoi. by apply latency_in_range. }
  split; [unfold SPA_MSEC_PER_SEC, DEFAULT_RATE; lia|].
  split.
  - intros Hnz. rewrite Hc, Hp. unfold engine_lookup.
    by rewrite bool_decide_true.
  - intros Hz.
    assert (∀ p, engine_lookup d p PW_KEY_NODE_LATENCY
                 = pw_properties_get p PW_KEY_NODE_LATENCY) as Hlook.
    { intros p. by apply engine_lookup_other. }
    split; [|split].
    + intros p Hp'. rewrite Hc, Hlook. congruence.
    + intros p Hp'. rewrite Hp, Hlook. congruence.
    + intros Hno.
      destruct (getopt_loop_no_overlay _ _ _ PW_KEY_NODE_LATENCY Hno Hopts)
        as (Hgc & Hgp); [done|].
      destruct (main_init_props e Hcok Hpok) as (Ecp & Epp).
      rewrite Hpc, Ecp in Hgc. rewrite Hpp, Epp in Hgp.
      simpl in Hgc, Hgp. injection Hgc as Hgc. injection Hgp as Hgp.
      by rewrite Hc, Hp, !Hlook.
Qed.

(** *** The two streams *)

(** C9, as the code has it.  Whenever [main] has created both streams,
    they were constructed with the same value under [node.group], and
    each [pw_stream_connect] made was given the same flags and the same
    format (planar float-32, unpositioned, the configured channel count).
    The capture stream's connect is always made; the playback stream's is
    made if and only if the capture connect was not refused: after a
    refused capture connect [setup_streams] returns (line 137) and the
    playback stream stays unconnected. *)
Theorem streams_share_format_and_group e opts cs ps :
  capture (final (main e opts)) = Some cs →
  playback (final (main e opts)) = Some ps →
  (is_Some (pw_properties_get (stream_props cs) PW_KEY_NODE_GROUP) ∧
   pw_properties_get (stream_props cs) PW_KEY_NODE_GROUP
     = pw_properties_get (stream_props ps) PW_KEY_NODE_GROUP) ∧
  connected cs = Some (ConnectCall PW_DIRECTION_INPUT PW_ID_ANY connect_flags
                         (loopback_params (channels (final (main e opts))))) ∧
  (∀ call, connected ps = Some call →
           call = ConnectCall PW_DIRECTION_OUTPUT PW_ID_ANY connect_flags
                    (loopback_params (channels (final (main e opts))))) ∧
  (0 ≤ capture_connect_res e →
   connected ps = Some (ConnectCall PW_DIRECTION_OUTPUT PW_ID_ANY connect_flags
                          (loopback_params (channels (final (main e opts)))))) ∧
  (capture_connect_res e < 0 → connected ps = None).
Proof.
  intros Hcs Hps.
  destruct (main_streams_started e opts) as [d Hs]; [left; by rewrite Hcs|].
  destruct (starts_keeps _ _ _ Hs) as (_ & _ & Hnone & [pc Hpc] & [pp Hpp] & Hg).
  split.
  - rewrite (main_capture_lookup _ _ _ _ _ Hs Hpc Hcs).
    rewrite (main_playback_lookup _ _ _ _ _ Hs Hpp Hps).
    by rewrite !engine_lookup_group.
  - rewrite (main_started _ _ _ Hs) in *.
    destruct (main_run_streams e (started d) world_empty) as (Ec & Ep & ->).
    rewrite Ec in Hcs. rewrite Ep in Hps.
    destruct (started_fields d) as (_ & _ & _ & Epd).
    apply setup_streams_capture in Hcs as (_ & Hconn & _).
    pose proof (setup_streams_playback_refused _ _ _ ltac:(by rewrite Epd) Hps)
      as Hneg.
    apply setup_streams_playback in Hps as (_ & Hnew & Hpos & Hall);
      [|by rewrite Epd].
    auto.
Qed.

(** *** The loop and the exit code *)

Lemma on_core_error_quits d w id seq res msg :
  is_running d = true →
  (is_running (on_core_error d w id seq res msg).1 = false
     ↔ id = PW_ID_CORE ∧ res = - EPIPE) ∧
  ∃ line, log (on_core_error d w id seq res msg).2 = log w ++ [(LogError, line)].
Proof.
  intros Hrun. unfold on_core_error.
  destruct (bool_decide_reflect (id = PW_ID_CORE)) as [Hid|Hid];
    destruct (bool_decide_reflect (res = - EPIPE)) as [Hres|Hres]; simpl;
    (split; [|eauto]); rewrite ?Hrun; try (split; [done|tauto]).
  split; [done|]. intros _. unfold is_running in *. simpl.
  by destruct (loop d).
Qed.

Lemma main_run_loop e d w :
  is_Some (loop d) →
  ∃ d1, is_running d1 = true ∧
    main_run e d w =
    match iterate (loop_events e) d1 w with
    | None => Outcome None (setup_streams e d).1 w (Some (setup_streams e d).2)
    | Some (d2, w2) => Outcome (Some 0) d2 w2 (Some (setup_streams e d).2)
    end.
Proof.
  intros [l Hl]. unfold main_run, pw_main_loop_run.
  pose proof (setup_streams_fields e d) as (El & _).
  destruct (setup_streams e d) as [d1 sres]; simpl in *.
  exists (set_loop d1 ((λ _, MainLoop true) <$> loop d1)).
  split; [|done]. unfold is_running. simpl. by rewrite El, Hl.
Qed.

(** C5.  [on_core_error] logs every error and stops the loop if and only
    if the error is addressed to the core ([id == PW_ID_CORE]) with the
    code [EPIPE] (received as [res == -EPIPE]).  In a run of [main]: when
    such an error follows errors of other kinds only, the loop quits and
    [main] returns 0; as long as all errors are of other kinds the loop
    keeps running. *)
Theorem core_error_policy e opts d pre post id seq res msg :
  starts e opts d →
  loop_events e = pre ++ CoreErrorEvent id seq res msg :: post →
  Forall other_core_error pre →
  (∀ d0 w0, is_running d0 = true →
     (is_running (on_core_error d0 w0 id seq res msg).1 = false
        ↔ id = PW_ID_CORE ∧ res = - EPIPE) ∧
     ∃ line, log (on_core_error d0 w0 id seq res msg).2
             = log w0 ++ [(LogError, line)]) ∧
  (id = PW_ID_CORE ∧ res = - EPIPE →
     exit_code (main e opts) = Some 0 ∧
     length (log (final_world (main e opts))) = S (length pre)) ∧
  (¬ (id = PW_ID_CORE ∧ res = - EPIPE) → Forall other_core_error post →
     exit_code (main e opts) = None).
Proof.
  intros Hs Hevs Hpre.
  split; [intros d0 w0; apply on_core_error_quits|].
  rewrite (main_started _ _ _ Hs).
  destruct (started_fields d) as (Hloop & _).
  destruct (main_run_loop e (started d) world_empty) as (d1 & Hrun & ->);
    [by rewrite Hloop|].
  rewrite Hevs. split.
  - intros Hfatal.
    destruct (iterate_other_errors pre (CoreErrorEvent id seq res msg :: post)
                d1 world_empty Hpre Hrun) as (w' & -> & Hlen & _).
    simpl.
    destruct (on_core_error_quits d1 w' id seq res msg Hrun) as (Hq & line & Hlog).
    destruct (on_core_error d1 w' id seq res msg) as [d2 w2]; simpl in *.
    rewrite (proj2 Hq Hfatal). simpl. split; [done|].
    rewrite Hlog, length_app, Hlen. simpl. lia.
  - intros Hother Hpost.
    destruct (iterate_other_errors (pre ++ CoreErrorEvent id seq res msg :: post) []
                d1 world_empty) as (w' & _ & _ & Hnone); [|done|].
    + apply Forall_app. split; [done|]. by constructor.
    + rewrite app_nil_r in Hnone. by rewrite Hnone.
Qed.

End Program.

Section ChannelMapOption.

Context `{PipewireLib} `{Build}.

Implicit Types (d : data) (w : world) (e : env) (m : option string).

Lemma set_opt_channel_map_twice d m m' :
  set_opt_channel_map (set_opt_channel_map d m) m' = set_opt_channel_map d m'.
Proof. done. Qed.

Lemma set_opt_channel_map_same d : set_opt_channel_map d (opt_channel_map d) = d.
Proof. by destruct d. Qed.

Local Ltac same_outcome_with m :=
  unfold same_outcome; simpl; do 3 (split; [done|]); exists m; simpl;
  rewrite ?set_opt_channel_map_same; done.

Lemma handle_opt_channel_map c d m :
  match handle_opt c (set_opt_channel_map d m), handle_opt c d with
  | inl code1, inl code2 => code1 = code2
  | inr d1, inr d2 => ∃ m', d1 = set_opt_channel_map d2 m'
  | _, _ => False
  end.
Proof.
  destruct c; simpl; try done; try (by exists m).
  exists (Some optarg). done.
Qed.

Lemma getopt_loop_channel_map opts d m :
  match getopt_loop opts (set_opt_channel_map d m), getopt_loop opts d with
  | inl code1, inl code2 => code1 = code2
  | inr d1, inr d2 => ∃ m', d1 = set_opt_channel_map d2 m'
  | _, _ => False
  end.
Proof.
  revert d m. induction opts as [|c opts IH]; simpl; intros d m.
  - by exists m.
  - pose proof (handle_opt_channel_map c d m) as Hc.
    destruct (handle_opt c (set_opt_channel_map d m)) as [code1|d1],
             (handle_opt c d) as [code2|d2]; try done.
    destruct Hc as [m' ->]. apply IH.
Qed.

Lemma main_props_channel_map d m :
  main_props (set_opt_channel_map d m) = set_opt_channel_map (main_props d) m.
Proof.
  unfold main_props. simpl.
  destruct (opt_group_name d); simpl; by case_bool_decide.
Qed.

Lemma setup_streams_channel_map e d m :
  setup_streams e (set_opt_channel_map d m) =
  (set_opt_channel_map (setup_streams e d).1 m, (setup_streams e d).2).
Proof.
  unfold setup_streams, pw_stream_new. simpl.
  destruct (capture_new_fails e), (playback_new_fails e); simpl; try done;
    repeat case_bool_decide; done.
Qed.

Lemma iterate_channel_map evs d w m :
  iterate evs (set_opt_channel_map d m) w =
  (λ dw, (set_opt_channel_map dw.1 m, dw.2)) <$> iterate evs d w.
Proof.
  revert d w. induction evs as [|ev evs IH]; simpl; intros d w; [done|].
  assert (dispatch ev (set_opt_channel_map d m) w
          = (set_opt_channel_map (dispatch ev d w).1 m, (dispatch ev d w).2)) as ->.
  { destruct ev; simpl; unfold on_core_error; repeat case_match; done. }
  destruct (dispatch ev d w) as [d1 w1]; simpl.
  replace (is_running (set_opt_channel_map d1 m)) with (is_running d1) by done.
  destruct (is_running d1); [apply IH | done].
Qed.

Lemma main_run_channel_map e d w m :
  same_outcome (main_run e (set_opt_channel_map d m) w) (main_run e d w).
Proof.
  unfold main_run, pw_main_loop_run. rewrite setup_streams_channel_map.
  destruct (setup_streams e d) as [d1 sres]; simpl.
  pose proof (iterate_channel_map (loop_events e)
                (set_loop d1 ((λ _, MainLoop true) <$> loop d1)) w m) as Hit.
  simpl in Hit.
  replace (set_loop (set_opt_channel_map d1 m) ((λ _, MainLoop true) <$> loop d1))
    with (set_opt_channel_map (set_loop d1 ((λ _, MainLoop true) <$> loop d1)) m)
    by done.
  rewrite Hit. clear Hit.
  destruct (iterate _ _ w) as [[d2 w2]|]; same_outcome_with m.
Qed.

Lemma main_start_channel_map e d w m :
  same_outcome (main_start e (set_opt_channel_map d m) w) (main_start e d w).
Proof.
  unfold main_start.
  destruct (main_loop_new_ok e); cbn -[main_props main_run];
    [|same_outcome_with m].
  destruct (context_new_ok e); cbn -[main_props main_run];
    [|same_outcome_with m].
  set (d1 := set_context (set_loop d (Some (MainLoop false))) true).
  destruct (context_connect_ok e).
  - change (same_outcome
              (main_run e (set_core (main_props (set_opt_channel_map d1 m)) true) w)
              (main_run e (set_core (main_props d1) true) w)).
    rewrite main_props_channel_map.
    apply (main_run_channel_map e (set_core (main_props d1) true) w m).
  - change (same_outcome
              (Outcome (Some (-1))
                 (set_core (main_props (set_opt_channel_map d1 m)) false) w None)
              (Outcome (Some (-1)) (set_core (main_props d1) false) w None)).
    rewrite main_props_channel_map. same_outcome_with m.
Qed.

Lemma getopt_loop_skip_channel_map pre text post d :
  match getopt_loop (pre ++ OptChannelMap text :: post) d,
        getopt_loop (pre ++ post) d with
  | inl code1, inl code2 => code1 = code2
  | inr d1, inr d2 => ∃ m', d1 = set_opt_channel_map d2 m'
  | _, _ => False
  end.
Proof.
  revert d. induction pre as [|c pre IH]; simpl; intros d.
  - apply getopt_loop_channel_map.
  - destruct (handle_opt c d); [done | apply IH].
Qed.

(** [main] stores the argument of [-m] and never reads it: leaving the
    option out changes nothing but [opt_channel_map]. *)
Lemma main_ignores_channel_map e pre text post :
  same_outcome (main e (pre ++ OptChannelMap text :: post)) (main e (pre ++ post)).
Proof.
  unfold main. case_bool_decide.
  { same_outcome_with (opt_channel_map (main_init e)). }
  pose proof (getopt_loop_skip_channel_map pre text post (main_init e)) as Hskip.
  destruct (getopt_loop (pre ++ OptChannelMap text :: post) (main_init e))
    as [code1|d1],
    (getopt_loop (pre ++ post) (main_init e)) as [code2|d2]; try done.
  - subst. same_outcome_with (opt_channel_map (main_init e)).
  - destruct Hskip as [m ->]. apply main_start_channel_map.
Qed.

End ChannelMapOption.

Section NullSink.

Context `{PulseServer}.

Implicit Types (p : pw_properties) (key : string) (i : impl) (e : sink_env).

Local Opaque pw_properties_set.

Local Ltac key_ne := let E := fresh in intros E; vm_compute in E; discriminate E.

Local Ltac get_set_simpl :=
  unfold pw_properties_setf;
  repeat first [ rewrite get_set_eq | rewrite get_set_ne by key_ne ].

(** [add_props] sets values, it removes nothing. *)
Lemma add_props_keeps p str key :
  is_Some (pw_properties_get p key) →
  is_Some (pw_properties_get (add_props p str) key).
Proof.
  unfold add_props, merge_items. generalize (add_props_items str) as items.
  intros items. induction items as [|[k v] items IH] using rev_ind; [done|].
  intros Hsome. rewrite fmap_app, foldl_app. simpl. rewrite get_set.
  destruct (decide (k = key)); eauto.
Qed.

Lemma add_props_skips p str key :
  (∀ kv, kv ∈ add_props_items str → kv.1 ≠ key) →
  pw_properties_get (add_props p str) key = pw_properties_get p key.
Proof.
  intros Hskip. unfold add_props.
  rewrite get_merge_items, overlay_value_absent; [done|].
  intros kv (kv' & -> & Hin)%list_elem_of_fmap. simpl. by apply Hskip.
Qed.

Lemma null_sink_names_spec p :
  pw_properties_get (null_sink_names p) "sink_properties" = None ∧
  is_Some (pw_properties_get (null_sink_names p) PW_KEY_NODE_NAME) ∧
  (sink_properties_skip p "sink_name" →
   pw_properties_get (null_sink_names p) "sink_name" = None) ∧
  (sink_properties_skip p PW_KEY_NODE_NAME →
   pw_properties_get (null_sink_names p) PW_KEY_NODE_NAME
     = Some (default "null" (pw_properties_get p "sink_name"))).
Proof.
  unfold null_sink_names, sink_properties_skip.
  set (p1 := match pw_properties_get p "sink_name" with
             | Some str => _ | None => _ end).
  assert (pw_properties_get p1 PW_KEY_NODE_NAME
          = Some (default "null" (pw_properties_get p "sink_name"))) as Hname.
  { subst p1. destruct (pw_properties_get p "sink_name"); simpl; by get_set_simpl. }
  assert (pw_properties_get p1 "sink_name" = None) as Hsink.
  { subst p1. destruct (pw_properties_get p "sink_name") eqn:E; simpl;
      get_set_simpl; done. }
  assert (pw_properties_get p1 "sink_properties"
          = pw_properties_get p "sink_properties") as Hprops.
  { subst p1. destruct (pw_properties_get p "sink_name"); simpl; by get_set_simpl. }
  rewrite <- Hprops.
  destruct (pw_properties_get p1 "sink_properties") as [str|] eqn:E.
  - get_set_simpl. split; [done|]. split; [|split].
    + apply add_props_keeps. by rewrite Hname.
    + intros Hskip. rewrite add_props_skips by eauto. done.
    + intros Hskip. rewrite add_props_skips by eauto. done.
  - rewrite Hname. eauto.
Qed.

Lemma null_sink_channels_spec i p channels p' :
  null_sink_channels i p = (channels, p') →
  pw_properties_get p' "channels" = None ∧
  pw_properties_get p' "rate" = None ∧
  ∀ key, key ≠ "channels" → key ≠ "rate" →
         key ≠ SPA_KEY_AUDIO_CHANNELS → key ≠ SPA_KEY_AUDIO_RATE →
         pw_properties_get p' key = pw_properties_get p key.
Proof.
  unfold null_sink_channels.
  destruct (pw_properties_get p "channels") eqn:Ec; simpl;
    match goal with
    | |- context [pw_properties_get ?q "rate"] =>
        destruct (pw_properties_get q "rate") eqn:Er
    end; intros [= <- <-]; get_set_simpl;
    (split; [first [done | by rewrite <- Ec | by rewrite <- Er
                    | by revert Er; get_set_simpl ]|]);
    (split; [first [done | by rewrite <- Er | by revert Er; get_set_simpl ]|]);
    intros key H1 H2 H3 H4; unfold pw_properties_setf;
    by rewrite ?get_set_ne.
Qed.

Lemma null_sink_map_spec i channels p m p' :
  null_sink_map i channels p = Some (m, p') →
  pw_properties_get p' "channel_map" = None ∧
  ∀ key, key ≠ "channel_map" → pw_properties_get p' key = pw_properties_get p key.
Proof.
  unfold null_sink_map.
  destruct (pw_properties_get p "channel_map") eqn:Em.
  - intros [= <- <-]. split; [by get_set_simpl|].
    intros key Hk. by rewrite get_set_ne.
  - repeat case_bool_decide; intros [= <- <-]; done.
Qed.

Lemma null_sink_position_spec m p key :
  key ≠ SPA_KEY_AUDIO_POSITION →
  pw_properties_get (null_sink_position m p) key = pw_properties_get p key.
Proof.
  intros Hk. unfold null_sink_position. case_bool_decide; [|done].
  by rewrite get_set_ne.
Qed.

Lemma null_sink_description_spec p p' :
  null_sink_description p = Some p' →
  pw_properties_get p' PW_KEY_FACTORY_NAME = Some "support.null-audio-sink" ∧
  pw_properties_get p' PW_KEY_OBJECT_LINGER = Some "true" ∧
  pw_properties_get p' PW_KEY_MEDIA_CLASS
    = Some (default "Audio/Sink" (pw_properties_get p PW_KEY_MEDIA_CLASS)) ∧
  ∀ key, key ≠ PW_KEY_FACTORY_NAME → key ≠ PW_KEY_OBJECT_LINGER →
         key ≠ PW_KEY_MEDIA_CLASS → key ≠ PW_KEY_NODE_DESCRIPTION →
         key ≠ "device.description" →
         pw_properties_get p' key = pw_properties_get p key.
Proof.
  unfold null_sink_description.
  set (p1 := match pw_properties_get p PW_KEY_MEDIA_CLASS with
             | Some _ => _ | None => _ end).
  assert (pw_properties_get p1 PW_KEY_MEDIA_CLASS
          = Some (default "Audio/Sink" (pw_properties_get p PW_KEY_MEDIA_CLASS)))
    as Hclass.
  { subst p1. destruct (pw_properties_get p PW_KEY_MEDIA_CLASS) eqn:E; simpl;
      [done | by get_set_simpl]. }
  assert (∀ key, key ≠ PW_KEY_MEDIA_CLASS →
                 pw_properties_get p1 key = pw_properties_get p key) as Hother.
  { intros key Hk. subst p1. destruct (pw_properties_get p PW_KEY_MEDIA_CLASS);
      [done | by rewrite get_set_ne]. }
  destruct (pw_properties_get p1 "device.description") eqn:Ed; simpl.
  - intros [= <-]. get_set_simpl. repeat split; try done.
    intros key H1 H2 H3 H4 H5. rewrite !get_set_ne by done. by apply Hother.
  - destruct (pw_properties_get p1 PW_KEY_NODE_NAME) eqn:En; simpl; [|done].
    intros [= <-]. get_set_simpl. repeat split; try done.
    intros key H1 H2 H3 H4 H5. unfold pw_properties_setf.
    rewrite !get_set_ne by done. by apply Hother.
Qed.



(** The factory checks the channel map it is given against the channel
    count. *)
Lemma null_sink_rejects_mismatch e i argument channels p str :
  props_new_dict_ok e = true →
  null_sink_channels i (null_sink_names (null_sink_start argument)) = (channels, p) →
  pw_properties_get p "channel_map" = Some str →
  map_channels (channel_map_parse str CHANNEL_MAP_INIT) ≠ channels →
  create_module_null_sink e i argument
    = Failed EINVAL (Some (pw_properties_set p "channel_map" None)).
Proof.
  intros Hok Hch Hget Hne. unfold create_module_null_sink.
  rewrite Hok, Hch. simpl. unfold null_sink_map. rewrite Hget.
  by rewrite bool_decide_true.
Qed.

Local Transparent pw_properties_set.

End NullSink.

Section ChannelMapCheck.

Context `{PipewireLib} `{Build} `{PulseServer}.

(** C7, as the code has it.  [pw-loopback] stores the channel map given
    with [-m] and never compares it with the channel count: with or
    without the option, [main] creates the same streams and returns the
    same value.  The null-sink factory does compare: when the
    [channel_map] it is given parses to a map whose length is not the
    channel count, it fails with [EINVAL] and frees its dictionary, before
    a module is allocated. *)
Theorem channel_map_checked_by_null_sink_only
    (e : env) (pre : list opt) (text : string) (post : list opt)
    (se : sink_env) (i : impl) (argument : option string)
    (channels : Z) (p : pw_properties) (str : string) :
  props_new_dict_ok se = true →
  null_sink_channels i (null_sink_names (null_sink_start argument)) = (channels, p) →
  pw_properties_get p "channel_map" = Some str →
  map_channels (channel_map_parse str CHANNEL_MAP_INIT) ≠ channels →
  same_outcome (main e (pre ++ OptChannelMap text :: post)) (main e (pre ++ post)) ∧
  create_module_null_sink se i argument
    = Failed EINVAL (Some (pw_properties_set p "channel_map" None)).
Proof.
  intros Hok Hch Hget Hne. split.
  - apply main_ignores_channel_map.
  - by apply (null_sink_rejects_mismatch se i argument channels p str).
Qed.

End ChannelMapCheck.

Section LoopbackMore.

Context `{PipewireLib} `{Build}.

Implicit Types (d : data) (w : world) (e : env) (opts : list opt).

(** *** The loop *)

Lemma iterate_keeps_running pre rest d w :
  Forall keeps_running pre → is_running d = true →
  ∃ w', iterate (pre ++ rest) d w = iterate rest d w' ∧
        length (log w') = (length (log w) + length (filter is_core_error pre))%nat ∧
        descriptors w' = descriptors w ∧ samples w' = samples w.
Proof.
  intros Hall Hrun. revert w.
  induction Hall as [|ev pre Hev _ IH]; intros w; simpl.
  - exists w. split; [done|]. split; [simpl; lia|done].
  - destruct ev as [sig|id seq res msg]; simpl in Hev.
    + destruct Hev as [Hint Hterm]. unfold dispatch.
      rewrite !bool_decide_false by done. simpl. rewrite Hrun.
      destruct (IH w) as (w' & -> & Hlen & Hd & Hs).
      exists w'. rewrite filter_cons_False by (simpl; auto). done.
    + unfold dispatch, on_core_error.
      replace (bool_decide (id = PW_ID_CORE) && bool_decide (res = - EPIPE))
        with false
        by (symmetry; apply andb_false_iff; rewrite !bool_decide_eq_false;
            destruct (decide (id = PW_ID_CORE)); tauto).
      rewrite Hrun.
      destruct (IH (pw_log_error w ("error id:" +:+ fmt_u id +:+ " seq:" +:+ pretty seq
                         +:+ " res:" +:+ pretty res +:+ ": " +:+ msg)))
        as (w' & -> & Hlen & Hd & Hs).
      exists w'. rewrite filter_cons_True by (simpl; auto).
      repeat split; try done.
      rewrite Hlen. simpl. rewrite length_app. simpl. lia.
Qed.

(** X1.  In a run that started, the first [SIGINT] or [SIGTERM] the loop
    receives, after events that keep it running, makes [do_quit] stop the
    loop: [main] returns 0, with one line logged for each error of the
    core received before the signal; the events after the signal are not
    dispatched. *)
Theorem signal_quits_loop e opts d pre sig post :
  starts e opts d →
  loop_events e = pre ++ SignalEvent sig :: post →
  Forall keeps_running pre →
  sig = SIGINT ∨ sig = SIGTERM →
  exit_code (main e opts) = Some 0 ∧
  is_running (final (main e opts)) = false ∧
  length (log (final_world (main e opts))) = length (filter is_core_error pre).
Proof.
  intros Hs Hevs Hpre Hsig.
  rewrite (main_started _ _ _ Hs).
  destruct (started_fields d) as (Hloop & _).
  destruct (main_run_loop e (started d) world_empty) as (d1 & Hrun & ->);
    [by rewrite Hloop|].
  rewrite Hevs.
  destruct (iterate_keeps_running pre (SignalEvent sig :: post) d1 world_empty
              Hpre Hrun) as (w' & -> & Hlen & _).
  simpl.
  replace (bool_decide (sig = SIGINT) || bool_decide (sig = SIGTERM)) with true
    by (symmetry; apply orb_true_iff; rewrite !bool_decide_eq_true; done).
  unfold do_quit, is_running in *. simpl.
  destruct (loop d1); simpl; [|done]. done.
Qed.

(** *** The options *)

Lemma getopt_loop_no_return opts d :
  Forall (λ c, returns_early c = false) opts → ∃ d', getopt_loop opts d = inr d'.
Proof.
  intros Hall. revert d. induction Hall as [|c opts Hc _ IH]; intros d; simpl.
  - eauto.
  - destruct c; simpl in *; try done; apply IH.
Qed.

Lemma getopt_loop_returns pre c post d :
  Forall (λ c, returns_early c = false) pre → returns_early c = true →
  getopt_loop (pre ++ c :: post) d = inl (if c is OptUnknown then -1 else 0).
Proof.
  intros Hall Hc. revert d. induction Hall as [|c' pre Hc' _ IH]; intros d; simpl.
  - by destruct c.
  - destruct c'; simpl in *; try done; apply IH.
Qed.

(** X2.  When the dictionaries could be allocated, [main] returns at the
    first of [-h], [--version] or an option that [getopt_long] does not
    know: 0 for the first two, -1 for the last, whatever follows on the
    command line; no loop and no stream has been created then. *)
Theorem option_returns_early e pre c post :
  capture_props_new_ok e = true → playback_props_new_ok e = true →
  Forall (λ c, returns_early c = false) pre → returns_early c = true →
  exit_code (main e (pre ++ c :: post)) = Some (if c is OptUnknown then -1 else 0) ∧
  setup_result (main e (pre ++ c :: post)) = None ∧
  loop (final (main e (pre ++ c :: post))) = None ∧
  capture (final (main e (pre ++ c :: post))) = None ∧
  playback (final (main e (pre ++ c :: post))) = None.
Proof.
  intros Hc Hp Hpre Hret. unfold main.
  destruct (main_init_props e Hc Hp) as (Ecp & Epp).
  destruct (main_init_streams e) as (El & Ecs & Eps).
  rewrite bool_decide_false by (rewrite Ecp, Epp; intros [?|?]; done).
  rewrite (getopt_loop_returns pre c post _ Hpre Hret). done.
Qed.

(** X3.  With options that do not make [main] return, [setup_streams] is
    called if and only if every constructor before it succeeded; when one
    of them failed [main] returns -1 without having created a stream. *)
Theorem constructor_failure_exits e opts :
  Forall (λ c, returns_early c = false) opts →
  (is_Some (setup_result (main e opts)) ↔ constructors_ok e = true) ∧
  (constructors_ok e = false →
   exit_code (main e opts) = Some (-1) ∧
   capture (final (main e opts)) = None ∧
   playback (final (main e opts)) = None).
Proof.
  intros Hopts. unfold constructors_ok.
  destruct (main_init_streams e) as (El & Ecs & Eps).
  destruct (capture_props_new_ok e) eqn:Hc; simpl;
    [destruct (playback_props_new_ok e) eqn:Hp; simpl|].
  - destruct (getopt_loop_no_return opts (main_init e) Hopts) as [d Hg].
    pose proof (getopt_loop_keeps _ _ _ Hg) as (_ & Ec' & Ep' & _).
    rewrite Ecs in Ec'. rewrite Eps in Ep'.
    destruct (main_loop_new_ok e) eqn:Hl; simpl;
      [destruct (context_new_ok e) eqn:Hx; simpl;
         [destruct (context_connect_ok e) eqn:Hn; simpl|]|].
    + rewrite (main_started e opts d) by done.
      unfold main_run. destruct (setup_streams e (started d)) as [d1 sres].
      destruct (pw_main_loop_run _ _ _) as [[d2 w2]|]; simpl;
        (split; [split; eauto|done]).
    + unfold main, main_start. destruct (main_init_props e Hc Hp) as (Ecp & Epp).
      rewrite bool_decide_false by (rewrite Ecp, Epp; intros [?|?]; done).
      rewrite Hg, Hl, Hx, Hn. cbn -[main_props].
      pose proof (main_props_fields
                    (set_context (set_loop d (Some (MainLoop false))) true))
        as (_ & _ & _ & _ & _ & Ec2 & Ep2 & _).
      simpl in Ec2, Ep2. rewrite Ec2, Ep2, Ec', Ep'.
      split; [split; [intros [? ?]; done | done]|done].
    + unfold main, main_start. destruct (main_init_props e Hc Hp) as (Ecp & Epp).
      rewrite bool_decide_false by (rewrite Ecp, Epp; intros [?|?]; done).
      rewrite Hg, Hl, Hx. simpl. rewrite Ec', Ep'.
      split; [split; [intros [? ?]; done | done]|done].
    + unfold main, main_start. destruct (main_init_props e Hc Hp) as (Ecp & Epp).
      rewrite bool_decide_false by (rewrite Ecp, Epp; intros [?|?]; done).
      rewrite Hg, Hl. simpl. rewrite Ec', Ep'.
      split; [split; [intros [? ?]; done | done]|done].
  - unfold main. rewrite bool_decide_true.
    + cbn [exit_code setup_result final]. rewrite Ecs, Eps.
      split; [split; [intros [? ?]; done | done]|done].
    + right. unfold main_init. rewrite Hp. by case_bool_decide.
  - unfold main. rewrite bool_decide_true.
    + cbn [exit_code setup_result final]. rewrite Ecs, Eps.
      split; [split; [intros [? ?]; done | done]|done].
    + left. unfold main_init. rewrite Hc. by case_bool_decide.
Qed.

(** X4.  [main] returns 0 or -1, or its loop is still running. *)
Theorem main_exit_codes e opts :
  exit_code (main e opts) = None ∨ exit_code (main e opts) = Some 0 ∨
  exit_code (main e opts) = Some (-1).
Proof.
  unfold main. case_bool_decide; [by right; right|].
  destruct (getopt_loop opts (main_init e)) as [code|d] eqn:Hg.
  - cbn [exit_code]. revert Hg. generalize (main_init e).
    induction opts as [|c opts IH]; simpl; intros d0; [done|].
    destruct (handle_opt c d0) as [code'|d1] eqn:Hc; [|apply IH].
    intros [= <-]. destruct c; simplify_eq/=; auto.
  - unfold main_start, main_run.
    repeat (case_bool_decide || case_match); simpl; auto.
Qed.

End LoopbackMore.

Section LoopbackOptions.

Context `{PipewireLib} `{Build}.

Implicit Types (d : data) (w : world) (e : env) (opts : list opt).

Local Opaque pw_properties_set.

Lemma getopt_loop_channels opts d d' :
  Forall (λ c, is_channels_opt c = false) opts →
  getopt_loop opts d = inr d' → channels d' = channels d.
Proof.
  intros Hall. revert d.
  induction Hall as [|c opts Hc _ IH]; simpl; intros d Hg.
  - by injection Hg as <-.
  - destruct (handle_opt c d) as [code|d1] eqn:Hh; [done|].
    rewrite (IH _ Hg). by destruct c; simplify_eq/=.
Qed.

Lemma getopt_loop_group opts d d' :
  Forall (λ c, is_group_opt c = false) opts →
  getopt_loop opts d = inr d' → opt_group_name d' = opt_group_name d.
Proof.
  intros Hall. revert d.
  induction Hall as [|c opts Hc _ IH]; simpl; intros d Hg.
  - by injection Hg as <-.
  - destruct (handle_opt c d) as [code|d1] eqn:Hh; [done|].
    rewrite (IH _ Hg). by destruct c; simplify_eq/=.
Qed.

Lemma main_final_channels e opts d :
  starts e opts d → channels (final (main e opts)) = channels d.
Proof.
  intros Hs. rewrite (main_started _ _ _ Hs).
  destruct (main_run_streams e (started d) world_empty) as (_ & _ & ->).
  by destruct (started_fields d) as (_ & -> & _).
Qed.

(** X5.  [-C] names the target of the capture stream and [-P] the target
    of the playback stream: each stream is constructed with [node.target]
    set to the argument of the last such option for its direction (unless
    a later overlay for that direction writes the dictionary again), and
    without [node.target] when no option wrote into its dictionary. *)
Theorem node_target_per_direction e opts d cs ps :
  starts e opts d →
  capture (final (main e opts)) = Some cs →
  playback (final (main e opts)) = Some ps →
  (∀ pre target post,
      opts = pre ++ OptCapture target :: post →
      Forall (λ c, writes_capture_props c = false) post →
      pw_properties_get (stream_props cs) PW_KEY_NODE_TARGET = Some target) ∧
  (∀ pre target post,
      opts = pre ++ OptPlayback target :: post →
      Forall (λ c, writes_playback_props c = false) post →
      pw_properties_get (stream_props ps) PW_KEY_NODE_TARGET = Some target) ∧
  (Forall (λ c, writes_capture_props c = false) opts →
   pw_properties_get (stream_props cs) PW_KEY_NODE_TARGET = None) ∧
  (Forall (λ c, writes_playback_props c = false) opts →
   pw_properties_get (stream_props ps) PW_KEY_NODE_TARGET = None).
Proof.
  intros Hs Hcs Hps.
  destruct (starts_keeps _ _ _ Hs) as (_ & _ & _ & [pc Hpc] & [pp Hpp] & _).
  pose proof (main_capture_lookup _ _ _ _ _ Hs Hpc Hcs PW_KEY_NODE_TARGET) as Hc.
  pose proof (main_playback_lookup _ _ _ _ _ Hs Hpp Hps PW_KEY_NODE_TARGET) as Hp.
  rewrite engine_lookup_other in Hc, Hp by done.
  rewrite Hc, Hp. clear Hc Hp.
  destruct Hs as (Hcok & Hpok & _ & _ & _ & Hopts).
  destruct (main_init_props e Hcok Hpok) as (Ecp & Epp).
  split; [|split; [|split]].
  - intros pre target post -> Hpost.
    apply getopt_loop_app in Hopts as (d1 & Hpre & Hrest). simpl in Hrest.
    apply getopt_loop_keeps in Hpre as (_ & _ & _ & Hk & _).
    destruct Hk as [p1 Hp1]; [by rewrite Ecp|].
    rewrite (getopt_loop_capture_props _ _ _ Hpost Hrest) in Hpc.
    simpl in Hpc. rewrite Hp1 in Hpc. injection Hpc as <-. apply get_set_eq.
  - intros pre target post -> Hpost.
    apply getopt_loop_app in Hopts as (d1 & Hpre & Hrest). simpl in Hrest.
    apply getopt_loop_keeps in Hpre as (_ & _ & _ & _ & Hk & _).
    destruct Hk as [p1 Hp1]; [by rewrite Epp|].
    rewrite (getopt_loop_playback_props _ _ _ Hpost Hrest) in Hpp.
    simpl in Hpp. rewrite Hp1 in Hpp. injection Hpp as <-. apply get_set_eq.
  - intros Hnone. rewrite (getopt_loop_capture_props _ _ _ Hnone Hopts), Ecp in Hpc.
    by injection Hpc as <-.
  - intros Hnone. rewrite (getopt_loop_playback_props _ _ _ Hnone Hopts), Epp in Hpp.
    by injection Hpp as <-.
Qed.

(** X6.  The channel count of the format offered for both streams is 2
    without [-c], and otherwise what [atoi] gives for the argument of the
    last [-c], converted to [uint32_t]: the argument is not checked, so
    that a text without digits gives 0 channels and a negative number a
    count near 2^32. *)
Theorem channels_option e opts d cs ps :
  starts e opts d →
  capture (final (main e opts)) = Some cs →
  playback (final (main e opts)) = Some ps →
  0 ≤ capture_connect_res e →
  (∃ n, connected cs = Some (ConnectCall PW_DIRECTION_INPUT PW_ID_ANY connect_flags
                               (loopback_params n)) ∧
        connected ps = Some (ConnectCall PW_DIRECTION_OUTPUT PW_ID_ANY connect_flags
                               (loopback_params n)) ∧
        n = channels d) ∧
  (Forall (λ c, is_channels_opt c = false) opts → channels d = DEFAULT_CHANNELS) ∧
  (∀ pre text post,
      opts = pre ++ OptChannels text :: post →
      Forall (λ c, is_channels_opt c = false) post →
      channels d = to_uint32 (atoi text) ∧ 0 ≤ channels d < 2 ^ 32).
Proof.
  intros Hs Hcs Hps Hres.
  destruct (starts_keeps _ _ _ Hs) as (_ & _ & Hnone & _).
  split; [|split].
  - exists (channels d).
    rewrite (main_started _ _ _ Hs) in Hcs, Hps.
    destruct (main_run_streams e (started d) world_empty) as (Ec & Ep & _).
    rewrite Ec in Hcs. rewrite Ep in Hps.
    destruct (started_fields d) as (_ & Ech & _ & Epd).
    apply setup_streams_playback in Hps as (_ & Hnew & Hpos & _);
      [|by rewrite Epd].
    apply setup_streams_capture in Hcs as (_ & Hconn & _).
    rewrite Hconn, Hpos, Ech by done. done.
  - intros Hno. destruct Hs as (_ & _ & _ & _ & _ & Hopts).
    rewrite (getopt_loop_channels _ _ _ Hno Hopts).
    unfold main_init. by case_bool_decide.
  - intros pre text post -> Hpost. destruct Hs as (_ & _ & _ & _ & _ & Hopts).
    apply getopt_loop_app in Hopts as (d1 & _ & Hrest). simpl in Hrest.
    rewrite (getopt_loop_channels _ _ _ Hpost Hrest). simpl.
    split; [done|]. unfold to_uint32. apply Z.mod_pos_bound. lia.
Qed.

(** X7.  Both streams are constructed with [node.group] set to the
    argument of the last [-g]; without [-g] it is the program name, a dash
    and the process id, cut after 255 characters. *)
Theorem group_name_option e opts d cs ps :
  starts e opts d →
  capture (final (main e opts)) = Some cs →
  playback (final (main e opts)) = Some ps →
  (Forall (λ c, is_group_opt c = false) opts →
   pw_properties_get (stream_props cs) PW_KEY_NODE_GROUP
     = Some (String.substring 0 255 (argv0 e +:+ "-" +:+ fmt_zd (pid e))) ∧
   pw_properties_get (stream_props ps) PW_KEY_NODE_GROUP
     = Some (String.substring 0 255 (argv0 e +:+ "-" +:+ fmt_zd (pid e)))) ∧
  (∀ pre group post,
      opts = pre ++ OptGroup group :: post →
      Forall (λ c, is_group_opt c = false) post →
      pw_properties_get (stream_props cs) PW_KEY_NODE_GROUP = Some group ∧
      pw_properties_get (stream_props ps) PW_KEY_NODE_GROUP = Some group).
Proof.
  intros Hs Hcs Hps.
  destruct (starts_keeps _ _ _ Hs) as (_ & _ & _ & [pc Hpc] & [pp Hpp] & Hg).
  rewrite (main_capture_lookup _ _ _ _ _ Hs Hpc Hcs).
  rewrite (main_playback_lookup _ _ _ _ _ Hs Hpp Hps).
  rewrite !engine_lookup_group by done.
  destruct Hs as (_ & _ & _ & _ & _ & Hopts).
  split.
  - intros Hno. rewrite (getopt_loop_group _ _ _ Hno Hopts).
    unfold main_init. rewrite bool_decide_true; [done|].
    destruct (argv0 e); simpl; lia.
  - intros pre group post -> Hpost.
    apply getopt_loop_app in Hopts as (d1 & _ & Hrest). simpl in Hrest.
    by rewrite (getopt_loop_group _ _ _ Hpost Hrest).
Qed.

(** X8.  A negative latency is not refused: for an argument of -44739 to
    -1 milliseconds the frame count [ms * 48] is converted to [uint32_t],
    which gives [2^32 + ms * 48] (not zero), and both streams are
    constructed with that number in [node.latency]. *)
Theorem negative_latency_wraps e opts pre text post d cs ps ms :
  opts = pre ++ OptLatency text :: post →
  Forall (λ c, is_latency_opt c = false) post →
  atoi text = ms → - 44739 ≤ ms < 0 →
  starts e opts d →
  capture (final (main e opts)) = Some cs →
  playback (final (main e opts)) = Some ps →
  latency d = 2 ^ 32 + ms * 48 ∧
  pw_properties_get (stream_props cs) PW_KEY_NODE_LATENCY
    = Some (fmt_u (2 ^ 32 + ms * 48) +:+ "/48000") ∧
  pw_properties_get (stream_props ps) PW_KEY_NODE_LATENCY
    = Some (fmt_u (2 ^ 32 + ms * 48) +:+ "/48000").
Proof.
  intros -> Hpost Hatoi Hms Hs Hcs Hps.
  destruct (starts_keeps _ _ _ Hs) as (_ & _ & _ & [pc Hpc] & [pp Hpp] & Hg).
  rewrite (main_capture_lookup _ _ _ _ _ Hs Hpc Hcs).
  rewrite (main_playback_lookup _ _ _ _ _ Hs Hpp Hps).
  destruct Hs as (_ & _ & _ & _ & _ & Hopts).
  assert (latency d = 2 ^ 32 + ms * 48) as Hlat.
  { apply getopt_loop_app in Hopts as (d1 & _ & Hrest). simpl in Hrest.
    rewrite (getopt_loop_latency _ _ _ Hpost Hrest). simpl. rewrite Hatoi.
    rewrite latency_frames_defined by lia. unfold to_uint32.
    symmetry. apply (Z.mod_unique _ _ (-1)); lia. }
  split; [done|].
  unfold engine_lookup. rewrite bool_decide_true by (split; [done|lia]).
  by rewrite Hlat.
Qed.

Local Transparent pw_properties_set.

End LoopbackOptions.

Section StreamsMore.

Implicit Types (d : data) (w : world) (e : env) (cs ps : pw_stream).

(** X9.  [setup_streams] returns 0 if and only if both streams could be
    created and the daemon accepted both connects; then both streams exist
    and are connected, and only the capture stream has a [process]
    callback.  Every other value it returns is negative ([errno] is
    positive after a failed [pw_stream_new]). *)
Theorem setup_streams_returns_zero e d :
  (∀ n, capture_new_fails e = Some n → 0 < n) →
  (∀ n, playback_new_fails e = Some n → 0 < n) →
  ((setup_streams e d).2 = 0 ↔
   capture_new_fails e = None ∧ playback_new_fails e = None ∧
   0 ≤ capture_connect_res e ∧ 0 ≤ playback_connect_res e) ∧
  (setup_streams e d).2 ≤ 0 ∧
  ((setup_streams e d).2 = 0 →
   ∃ cs ps, capture (setup_streams e d).1 = Some cs ∧
            playback (setup_streams e d).1 = Some ps ∧
            is_Some (connected cs) ∧ is_Some (connected ps) ∧
            has_process cs = true ∧ has_process ps = false).
Proof.
  intros Hc Hp. unfold setup_streams, pw_stream_new.
  destruct (capture_new_fails e) as [nc|] eqn:Ec; simpl.
  { specialize (Hc nc eq_refl). split; [split; [lia|by intros (? & _)]|].
    split; lia. }
  destruct (playback_new_fails e) as [np|] eqn:Ep; simpl.
  { specialize (Hp np eq_refl). split; [split; [lia|by intros (_ & ? & _)]|].
    split; lia. }
  case_bool_decide as H1; simpl.
  { split; [split; [lia|intros (_ & _ & ? & _); lia]|]. split; lia. }
  case_bool_decide as H2; simpl.
  { split; [split; [lia|intros (_ & _ & _ & ?); lia]|]. split; lia. }
  split; [split; [intros _; repeat split; lia|done]|]. split; [done|].
  intros _. eexists _, _. repeat split; eauto.
Qed.

(** X10.  [setup_streams] hands each dictionary to the stream created
    from it and forgets it: [capture_props] is [NULL] afterwards in every
    case, [playback_props] is [NULL] as soon as the capture stream could be
    created, and a stream that exists holds the dictionary that was
    [data]'s.  When the capture connect is refused the function returns the
    daemon's value and the playback stream is left unconnected. *)
Theorem setup_streams_moves_dictionaries e d :
  capture_props (setup_streams e d).1 = None ∧
  playback_props (setup_streams e d).1
    = (if capture_new_fails e is None then None else playback_props d) ∧
  (∀ cs, capture (setup_streams e d).1 = Some cs →
         stream_name cs = "loopback capture" ∧
         stream_props cs = default pw_properties_new (capture_props d)) ∧
  (capture_new_fails e = None →
   ∀ ps, playback (setup_streams e d).1 = Some ps →
         stream_name ps = "loopback playback" ∧
         stream_props ps = default pw_properties_new (playback_props d) ∧
         (capture_connect_res e < 0 →
          connected ps = None ∧ (setup_streams e d).2 = capture_connect_res e)).
Proof.
  unfold setup_streams, pw_stream_new.
  destruct (capture_new_fails e) as [nc|] eqn:Ec; simpl; [done|].
  destruct (playback_new_fails e) as [np|] eqn:Ep; simpl.
  { split; [done|]. split; [done|]. split; [by intros ? [= <-]|]. by intros _ ?. }
  case_bool_decide as H1; simpl; [|case_bool_decide as H2; simpl].
  all: split; [done|]; split; [done|]; split; [by intros ? [= <-]|].
  all: intros _ ? [= <-]; simpl; repeat split; try done; intros; lia.
Qed.

(** X11.  A call of [capture_process] logs one warning for each dequeue
    that failed, the capture stream's first, and nothing else: two
    warnings when both rings are empty, none when both gave a buffer. *)
Theorem capture_process_warnings d w cs ps :
  capture d = Some cs → playback d = Some ps →
  ∃ d' w',
    capture_process d w = Some (d', w') ∧
    log w' = log w ++ tick_warnings (ring cs) (ring ps).
Proof.
  intros Hc Hp. unfold capture_process, tick_warnings. rewrite Hc, Hp. simpl.
  unfold pw_stream_dequeue_buffer.
  destruct (ring cs) as [|i ri], (ring ps) as [|o ro]; simpl;
    eexists _, _; (split; [reflexivity|]); simpl;
    rewrite <- ?app_assoc, ?app_nil_r; done.
Qed.

(** X12.  When [capture_process] forwards a buffer, the playback
    descriptor designates afterwards the very bytes the capture descriptor
    designates (nothing is copied), the capture descriptor is as before,
    and every descriptor other than the playback buffer's is untouched. *)
Theorem capture_process_aliases d w cs ps i ri o ro :
  capture d = Some cs → playback d = Some ps →
  ring cs = i :: ri → ring ps = o :: ro →
  ∃ d' w',
    capture_process d w = Some (d', w') ∧
    buffer_bytes w' (descriptors w' !!! buffer o)
      = buffer_bytes w (descriptors w !!! buffer i) ∧
    descriptors w' !!! buffer i = descriptors w !!! buffer i ∧
    ∀ a, a ≠ buffer o → descriptors w' !! a = descriptors w !! a.
Proof.
  intros Hc Hp Hrc Hrp. unfold capture_process. rewrite Hc, Hp. simpl.
  unfold pw_stream_dequeue_buffer. rewrite Hrc, Hrp. simpl.
  eexists _, _. split; [reflexivity|]. simpl.
  split; [|split].
  - unfold buffer_bytes. simpl. by rewrite lookup_total_insert_eq.
  - destruct (decide (buffer o = buffer i)) as [->|Hne].
    + by rewrite lookup_total_insert_eq.
    + by rewrite lookup_total_insert_ne.
  - intros a Ha. by rewrite lookup_insert_ne.
Qed.

End StreamsMore.

Section NullSinkMore.

Context `{PulseServer}.

Implicit Types (p : pw_properties) (key : string) (i : impl) (e : sink_env).

Local Opaque pw_properties_set.

Local Ltac key_ne := let E := fresh in intros E; vm_compute in E; discriminate E.

Local Ltac get_set_simpl :=
  unfold pw_properties_setf;
  repeat first [ rewrite get_set_eq | rewrite get_set_ne by key_ne ].

Lemma null_sink_channels_audio i p channels p' :
  null_sink_channels i p = (channels, p') →
  channels = match pw_properties_get p "channels" with
             | Some str => to_uint32 (atoi str)
             | None => defs_sample_spec_channels i
             end ∧
  pw_properties_get p' SPA_KEY_AUDIO_CHANNELS
    = Some (match pw_properties_get p "channels" with
            | Some str => str
            | None => fmt_u (defs_sample_spec_channels i)
            end) ∧
  pw_properties_get p' SPA_KEY_AUDIO_RATE
    = match pw_properties_get p "rate" with
      | Some str => Some str
      | None => pw_properties_get p SPA_KEY_AUDIO_RATE
      end.
Proof.
  unfold null_sink_channels.
  destruct (pw_properties_get p "channels") eqn:Ec; simpl;
    match goal with
    | |- context [pw_properties_get ?q "rate"] =>
        assert (pw_properties_get q "rate" = pw_properties_get p "rate") as Erate
          by (by get_set_simpl);
        assert (pw_properties_get q SPA_KEY_AUDIO_RATE
                = pw_properties_get p SPA_KEY_AUDIO_RATE) as Ear
          by (by get_set_simpl);
        destruct (pw_properties_get q "rate") eqn:Er
    end; rewrite <- Erate; intros [= <- <-]; get_set_simpl; done.
Qed.

Lemma null_sink_description_text p p' name :
  null_sink_description p = Some p' →
  pw_properties_get p PW_KEY_NODE_NAME = Some name →
  pw_properties_get p' "device.description" = None ∧
  pw_properties_get p' PW_KEY_NODE_DESCRIPTION
    = Some (match pw_properties_get p "device.description" with
            | Some str => str
            | None =>
                default_description name
                  (default "Audio/Sink" (pw_properties_get p PW_KEY_MEDIA_CLASS))
            end).
Proof.
  unfold null_sink_description. intros Hd Hname.
  set (p1 := match pw_properties_get p PW_KEY_MEDIA_CLASS with
             | Some _ => _ | None => _ end) in Hd.
  assert (pw_properties_get p1 PW_KEY_MEDIA_CLASS
          = Some (default "Audio/Sink" (pw_properties_get p PW_KEY_MEDIA_CLASS)))
    as Hclass.
  { subst p1. destruct (pw_properties_get p PW_KEY_MEDIA_CLASS) eqn:E; simpl;
      [done | by get_set_simpl]. }
  assert (∀ key, key ≠ PW_KEY_MEDIA_CLASS →
                 pw_properties_get p1 key = pw_properties_get p key) as Hother.
  { intros key Hk. subst p1. destruct (pw_properties_get p PW_KEY_MEDIA_CLASS);
      [done | by rewrite get_set_ne]. }
  rewrite <- (Hother "device.description") by key_ne.
  destruct (pw_properties_get p1 "device.description") eqn:Ed; simpl in Hd.
  - injection Hd as <-. by get_set_simpl.
  - rewrite (Hother PW_KEY_NODE_NAME), Hname in Hd by key_ne. simpl in Hd.
    rewrite Hclass in Hd.
    simpl in Hd. injection Hd as <-. get_set_simpl. by rewrite Ed.
Qed.

(** The stages a successful call went through. *)
Lemma null_sink_created e i argument m :
  create_module_null_sink e i argument = Created m →
  ∃ channels p2 cm p3 p5,
    null_sink_channels i (null_sink_names (null_sink_start argument)) = (channels, p2) ∧
    null_sink_map i channels p2 = Some (cm, p3) ∧
    map_channels cm = channels ∧
    null_sink_description (null_sink_position cm p3) = Some p5 ∧
    m = ModuleRec (Some p5) SPA_ID_INVALID.
Proof.
  unfold create_module_null_sink.
  destruct (props_new_dict_ok e); simpl; [|done].
  destruct (null_sink_channels i _) as [channels p2] eqn:Hch.
  destruct (null_sink_map i channels p2) as [[cm p3]|] eqn:Hmap; [|done].
  case_bool_decide as Hne; [done|].
  destruct (null_sink_description _) as [p5|] eqn:Hd; [|done].
  destruct (module_new_fails e); [done|]. intros [= <-].
  exists channels, p2, cm, p3, p5.
  destruct (decide (map_channels cm = channels)); done.
Qed.

Local Ltac split_managed Hk :=
  unfold null_sink_managed in Hk; rewrite !not_elem_of_cons in Hk;
  destruct Hk as (? & ? & ? & ? & ? & ? & ? & ? & ? & ? & ? & _).

(** A key the later stages do not manage is as [null_sink_names] left it. *)
Lemma null_sink_created_other e i argument m p key :
  create_module_null_sink e i argument = Created m → props m = Some p →
  key ∉ null_sink_managed →
  pw_properties_get p key
    = pw_properties_get (null_sink_names (null_sink_start argument)) key.
Proof.
  intros Hc Hp Hk.
  apply null_sink_created in Hc as (channels & p2 & cm & p3 & p5 & Hch & Hmap & _ & Hd & ->).
  simpl in Hp. injection Hp as <-. split_managed Hk.
  apply null_sink_channels_spec in Hch as (_ & _ & Ho2).
  apply null_sink_map_spec in Hmap as (_ & Ho3).
  apply null_sink_description_spec in Hd as (_ & _ & _ & Ho5).
  by rewrite Ho5, null_sink_position_spec, Ho3, Ho2.
Qed.

(** X13.  The channel count and the rate are passed on as texts: the
    module's [audio.channels] is the [channels] given, character for
    character (the default count in decimal when none is given), and its
    [audio.rate] is the [rate] given; neither is checked to be a
    number. *)
Theorem null_sink_audio_keys e i argument m p :
  create_module_null_sink e i argument = Created m → props m = Some p →
  pw_properties_get p SPA_KEY_AUDIO_CHANNELS
    = Some (match pw_properties_get (null_sink_names (null_sink_start argument))
                    "channels" with
            | Some str => str
            | None => fmt_u (defs_sample_spec_channels i)
            end) ∧
  pw_properties_get p SPA_KEY_AUDIO_RATE
    = match pw_properties_get (null_sink_names (null_sink_start argument)) "rate" with
      | Some str => Some str
      | None => pw_properties_get (null_sink_names (null_sink_start argument))
                  SPA_KEY_AUDIO_RATE
      end.
Proof.
  intros Hc Hp.
  apply null_sink_created in Hc as (channels & p2 & cm & p3 & p5 & Hch & Hmap & _ & Hd & ->).
  simpl in Hp. injection Hp as <-.
  apply null_sink_channels_audio in Hch as (_ & Hac & Har).
  apply null_sink_map_spec in Hmap as (_ & Ho3).
  apply null_sink_description_spec in Hd as (_ & _ & _ & Ho5).
  rewrite !Ho5, !null_sink_position_spec, !Ho3 by key_ne. done.
Qed.

(** X14.  The module's [node.description] is the [device.description]
    given, which is then removed; without one it is made of the node name
    and the media class, each followed by a space unless empty, and the
    word "sink" ("null Audio/Sink sink" when nothing is given). *)
Theorem null_sink_node_description e i argument m p :
  create_module_null_sink e i argument = Created m → props m = Some p →
  pw_properties_get p "device.description" = None ∧
  ∃ name,
    pw_properties_get p PW_KEY_NODE_NAME = Some name ∧
    pw_properties_get p PW_KEY_NODE_DESCRIPTION
      = Some (match pw_properties_get (null_sink_names (null_sink_start argument))
                      "device.description" with
              | Some str => str
              | None =>
                  default_description name
                    (default "Audio/Sink"
                       (pw_properties_get (null_sink_names (null_sink_start argument))
                          PW_KEY_MEDIA_CLASS))
              end).
Proof.
  intros Hc Hp.
  destruct (null_sink_names_spec (null_sink_start argument)) as (_ & [name Hname] & _).
  pose proof (null_sink_created_other e i argument m p PW_KEY_NODE_NAME Hc Hp) as Hn.
  apply null_sink_created in Hc as (channels & p2 & cm & p3 & p5 & Hch & Hmap & _ & Hd & ->).
  simpl in Hp. injection Hp as <-.
  apply null_sink_channels_spec in Hch as (_ & _ & Ho2).
  apply null_sink_map_spec in Hmap as (_ & Ho3).
  assert (∀ key, key ≠ "channels" → key ≠ "rate" → key ≠ SPA_KEY_AUDIO_CHANNELS →
            key ≠ SPA_KEY_AUDIO_RATE → key ≠ "channel_map" →
            key ≠ SPA_KEY_AUDIO_POSITION →
            pw_properties_get (null_sink_position cm p3) key
              = pw_properties_get (null_sink_names (null_sink_start argument)) key)
    as Hback.
  { intros key ? ? ? ? ? ?. by rewrite null_sink_position_spec, Ho3, Ho2. }
  destruct (null_sink_description_text _ _ name Hd) as (Hdev & Hdesc).
  { rewrite Hback by key_ne. done. }
  split; [done|]. exists name. split.
  - rewrite Hn, Hname; [done|]. unfold null_sink_managed.
    rewrite !not_elem_of_cons. repeat split; try key_ne. apply not_elem_of_nil.
  - rewrite Hdesc, !Hback by key_ne. done.
Qed.

(** X15.  The factory passes on what it does not manage: a key of the
    argument other than [sink_name], [sink_properties], [node.name] and
    the keys of lines 147-203 is in the module's dictionary with the value
    the argument gives it, unless the [sink_properties] set it; so are the
    module's own [module.*] entries. *)
Theorem null_sink_keeps_other_keys e i argument m p key :
  create_module_null_sink e i argument = Created m → props m = Some p →
  key ∉ null_sink_managed →
  key ∉ ["sink_name"; "sink_properties"; PW_KEY_NODE_NAME] →
  sink_properties_skip (null_sink_start argument) key →
  pw_properties_get p key = pw_properties_get (null_sink_start argument) key.
Proof.
  intros Hc Hp Hk Hn Hskip.
  rewrite (null_sink_created_other e i argument m p key Hc Hp Hk).
  rewrite !not_elem_of_cons in Hn. destruct Hn as (Hn1 & Hn2 & Hn3 & _).
  unfold null_sink_names, sink_properties_skip in *.
  set (p0 := null_sink_start argument) in *.
  set (p1 := match pw_properties_get p0 "sink_name" with
             | Some str => _ | None => _ end).
  assert (∀ k, k ≠ "sink_name" → k ≠ PW_KEY_NODE_NAME →
               pw_properties_get p1 k = pw_properties_get p0 k) as Hother.
  { intros k H1 H2. subst p1. destruct (pw_properties_get p0 "sink_name"); simpl;
      by rewrite !get_set_ne. }
  rewrite (Hother "sink_properties") by key_ne.
  destruct (pw_properties_get p0 "sink_properties") as [str|] eqn:E.
  - rewrite get_set_ne, add_props_skips by eauto. by apply Hother.
  - by apply Hother.
Qed.

(** X16.  The [sink_properties] are merged over the argument: a key they
    set, other than [sink_properties] itself and the keys of lines
    147-203, is in the module's dictionary with the value they give it
    last, whatever the argument itself gives it. *)
Theorem null_sink_sink_properties_win e i argument m p str key value :
  create_module_null_sink e i argument = Created m → props m = Some p →
  pw_properties_get (null_sink_start argument) "sink_properties" = Some str →
  overlay_value ((λ kv, (kv.1, Some kv.2)) <$> add_props_items str) key
    = Some (Some value) →
  key ∉ null_sink_managed → key ≠ "sink_properties" →
  pw_properties_get p key = Some value.
Proof.
  intros Hc Hp Hsp Hov Hk Hn.
  rewrite (null_sink_created_other e i argument m p key Hc Hp Hk).
  unfold null_sink_names.
  set (p0 := null_sink_start argument) in *.
  set (p1 := match pw_properties_get p0 "sink_name" with
             | Some s => _ | None => _ end).
  assert (pw_properties_get p1 "sink_properties" = Some str) as ->.
  { subst p1. destruct (pw_properties_get p0 "sink_name"); simpl; by get_set_simpl. }
  rewrite get_set_ne by done. unfold add_props.
  by rewrite get_merge_items, Hov.
Qed.


Local Transparent pw_properties_set.

End NullSinkMore.

Section PositionString.

Context `{PulseServer}.

Implicit Types (ids : list Z) (m : channel_map) (p : pw_properties).

Lemma string_app_cons (x : ascii) (a b : string) :
  String x a +:+ b = String x (a +:+ b).
Proof. reflexivity. Qed.

Lemma string_app_assoc (a b c : string) : (a +:+ b) +:+ c = a +:+ (b +:+ c).
Proof.
  induction a as [|x a IH]; [reflexivity|].
  by rewrite !string_app_cons, IH.
Qed.

Lemma string_app_length (a b : string) :
  String.length (a +:+ b) = (String.length a + String.length b)%nat.
Proof.
  induction a as [|x a IH]; [reflexivity|].
  rewrite string_app_cons. simpl. by rewrite IH.
Qed.

(** One item of the loop of lines 180-182. *)
Lemma position_item_length (i : nat) (name : string) :
  String.length ((if bool_decide (i = 0%nat) then "" else ",") +:+ name)
  = ((if bool_decide (i = 0%nat) then 0 else 1) + String.length name)%nat.
Proof. by case_bool_decide. Qed.

Lemma position_string_fits i ids :
  (∀ id, id ∈ ids → (String.length (channel_id2name id) ≤ 4)%nat) →
  position_string i ids = joined i ids.
Proof.
  revert i. induction ids as [|id rest IH]; intros i Hfit; simpl; [done|].
  rewrite bool_decide_true.
  - rewrite string_app_assoc, IH; [done|]. intros id' Hin. apply Hfit. set_solver.
  - rewrite position_item_length.
    specialize (Hfit id ltac:(set_solver)). case_bool_decide; lia.
Qed.

Lemma position_string_long i ids id rest :
  (∀ id', id' ∈ ids → (String.length (channel_id2name id') ≤ 4)%nat) →
  (5 < String.length
         ((if bool_decide ((i + length ids)%nat = 0%nat) then "" else ",")
          +:+ channel_id2name id))%nat →
  position_string i (ids ++ id :: rest)
  = joined i ids
    +:+ String.substring 0 5
          ((if bool_decide ((i + length ids)%nat = 0%nat) then "" else ",")
           +:+ channel_id2name id).
Proof.
  revert i. induction ids as [|id0 ids IH]; intros i Hfit Hlong.
  - simpl in *. rewrite Nat.add_0_r in Hlong. rewrite Nat.add_0_r.
    by rewrite bool_decide_false by lia.
  - specialize (IH (S i)).
    rewrite (bool_decide_false ((S i + length ids)%nat = 0%nat)) in IH by lia.
    rewrite (bool_decide_false ((i + length (id0 :: ids))%nat = 0%nat)) in Hlong
      by (simpl; lia).
    rewrite (bool_decide_false ((i + length (id0 :: ids))%nat = 0%nat))
      by (simpl; lia).
    simpl. rewrite bool_decide_true.
    + rewrite !string_app_assoc. f_equal. f_equal.
      apply IH; [|exact Hlong]. intros id' Hin. apply Hfit. set_solver.
    + rewrite position_item_length.
      specialize (Hfit id0 ltac:(set_solver)). case_bool_decide; lia.
Qed.

(** X18.  [audio.position] is written only for a map with channels.  When
    every position name has at most four characters it is the names of the
    map's positions separated by commas. *)
Theorem null_sink_position_joined m p :
  (∀ id, id ∈ map_positions m → (String.length (channel_id2name id) ≤ 4)%nat) →
  pw_properties_get (null_sink_position m p) SPA_KEY_AUDIO_POSITION
  = if bool_decide (0 < map_channels m)
    then Some (joined 0 (map_positions m))
    else pw_properties_get p SPA_KEY_AUDIO_POSITION.
Proof.
  intros Hfit. unfold null_sink_position. case_bool_decide; [|done].
  rewrite get_set_eq. f_equal. by apply position_string_fits.
Qed.

(** X19.  An item (a comma and a position name) that does not fit the
    five characters [snprintf] is given ends [audio.position]: the text is
    the names before it, then the first five characters of that item (its
    comma included); the positions after it are lost.  This is stated for
    names of five characters at most, with which every write stays inside
    the buffer. *)
Theorem null_sink_position_cut m p ids id rest :
  map_positions m = ids ++ id :: rest →
  (∀ id', id' ∈ ids → (String.length (channel_id2name id') ≤ 4)%nat) →
  (∀ id', id' ∈ id :: rest → (String.length (channel_id2name id') ≤ 5)%nat) →
  (5 < String.length
         ((if bool_decide (length ids = 0%nat) then "" else ",")
          +:+ channel_id2name id))%nat →
  pw_properties_get (null_sink_position m p) SPA_KEY_AUDIO_POSITION
  = Some (joined 0 ids
          +:+ String.substring 0 5
                ((if bool_decide (length ids = 0%nat) then "" else ",")
                 +:+ channel_id2name id)).
Proof.
  intros Hmap Hfit _ Hlong. unfold null_sink_position.
  rewrite bool_decide_true.
  - rewrite get_set_eq. f_equal. fold (map_positions m). rewrite Hmap.
    by apply (position_string_long 0).
  - assert (length (map_positions m) ≠ 0%nat) as Hlen
      by (rewrite Hmap, length_app; simpl; lia).
    unfold map_positions in Hlen. rewrite length_fmap, length_seq in Hlen. lia.
Qed.

(** The loop keeps [p] at no more than six bytes for each item written. *)
Lemma position_writes_bounds (i : nat) (ids : list Z) (off : nat) :
  (∀ id, id ∈ ids → (String.length (channel_id2name id) ≤ 5)%nat) →
  (off ≤ 6 * i)%nat →
  Forall (λ w : nat * nat, (w.1 + w.2 ≤ 6 * (i + length ids))%nat)
         (position_writes i ids off).
Proof.
  revert i off. induction ids as [|id ids IH]; intros i off Hfit Hoff; [constructor|].
  assert (String.length
            ((if bool_decide (i = 0%nat) then "" else ",") +:+ channel_id2name id)
          ≤ 6)%nat as Hitem.
  { rewrite position_item_length.
    specialize (Hfit id ltac:(set_solver)). case_bool_decide; lia. }
  simpl. constructor.
  - simpl. lia.
  - replace (i + S (length ids))%nat with (S i + length ids)%nat by lia.
    apply IH; [intros id' Hin; apply Hfit; set_solver | lia].
Qed.

(** X20.  The buffer of six bytes for each channel is large enough for
    names of five characters at most: every [snprintf] of the loop then
    writes inside it. *)
Theorem null_sink_position_in_bounds m :
  (∀ id, id ∈ map_positions m → (String.length (channel_id2name id) ≤ 5)%nat) →
  Forall (λ w : nat * nat, (w.1 + w.2 ≤ Z.to_nat (map_channels m * 6))%nat)
         (position_writes 0 (map_positions m) 0).
Proof.
  intros Hfit.
  eapply Forall_impl; [apply position_writes_bounds; [exact Hfit | lia]|].
  intros w Hw. simpl in Hw.
  unfold map_positions in Hw. rewrite length_fmap, length_seq in Hw. lia.
Qed.

End PositionString.

Section ModuleLife.

Implicit Types (s : sink_state) (evs : list proxy_event).

Lemma proxy_events_run_state evs s :
  proxy (proxy_events_run evs s) = (if destroyed evs then None else proxy s) ∧
  global_id (sink_module (proxy_events_run evs s))
    = default (global_id (sink_module s)) (last_bound evs) ∧
  props (sink_module (proxy_events_run evs s)) = props (sink_module s).
Proof.
  unfold proxy_events_run, last_bound, destroyed.
  induction evs as [|ev evs IH] using rev_ind; [done|].
  rewrite !foldl_app, existsb_app. simpl.
  destruct IH as (IHp & IHg & IHd).
  destruct ev; simpl; rewrite ?orb_false_r, ?orb_true_r; done.
Qed.

(** X21.  For a module as [create_module_null_sink] leaves it
    ([global_id] is [SPA_ID_INVALID]): [load] returns 0 when the object
    could be created and minus [errno] otherwise; after any events of the
    proxy, [unload] destroys the proxy if and only if [load] created one
    and no [destroy] event came since, and destroys the registry's global
    if and only if a [bound] event came, with the id of the last one
    (unless that id is [SPA_ID_INVALID]); it makes no other call. *)
Theorem null_sink_unload_calls (created : Z + Z) evs s :
  global_id (sink_module s) = SPA_ID_INVALID →
  (module_null_sink_load created s).1.2
    = (if created is inl errno then - errno else 0) ∧
  (module_null_sink_unload
     (proxy_events_run evs (module_null_sink_load created s).1.1)).2
  = (match created with
     | inr p => if destroyed evs then [] else [ProxyDestroy (Some p)]
     | inl _ => []
     end) ++
    (match last_bound evs with
     | Some id => if bool_decide (id ≠ SPA_ID_INVALID) then [RegistryDestroy id] else []
     | None => []
     end).
Proof.
  intros Hid. split; [by destruct created|].
  unfold module_null_sink_unload. simpl.
  destruct (proxy_events_run_state evs (module_null_sink_load created s).1.1)
    as (-> & -> & _).
  f_equal.
  - destruct created; simpl; by destruct (destroyed evs).
  - destruct created; simpl; rewrite Hid;
      destruct (last_bound evs); simpl; try done;
      by rewrite bool_decide_false by (by intros ?).
Qed.

End ModuleLife.

Section Json.

Implicit Types (node : ot_node) (ctx : ot_json_ctx).

Lemma ot_node_ind_subs (P : ot_node → Prop) :
  (∀ k v, P (OtScalar k v)) →
  (∀ k array flat costly subs, Forall P subs → P (OtContainer k array flat costly subs)) →
  ∀ node, P node.
Proof.
  intros Hscalar Hcontainer. fix IH 1.
  intros [k v|k array flat costly subs]; [apply Hscalar|].
  apply Hcontainer. induction subs as [|sub subs IHsubs]; constructor; [apply IH|done].
Qed.

Lemma dump_subs_ctx dump subs i out ctx :
  Forall (λ sub, ∀ ctx', (dump sub ctx').2 = ctx') subs →
  (dump_subs dump subs i out ctx).2 = ctx ∧
  (dump_subs dump subs i out ctx).1.1 = i + Z.of_nat (length subs).
Proof.
  intros Hall. revert i out ctx.
  induction Hall as [|sub subs Hsub _ IH]; intros i out ctx; simpl.
  - split; [done|lia].
  - specialize (Hsub ctx). destruct (dump sub ctx) as [text ctx1]. simpl in Hsub.
    subst ctx1. destruct (IH (i + 1) ((out +:+ (if bool_decide (0 < i) then "," else "")
        +:+ " " +:+ (if bool_decide (l0 ctx ≠ 0) then newline else "")) +:+ text) ctx)
      as (-> & ->).
    split; [done|lia].
Qed.

(** A value that is not a container leaves the context alone. *)
Lemma ot_json_dump2_scalar_ctx k v ctx : (ot_json_dump2 (OtScalar k v) ctx).2 = ctx.
Proof.
  simpl. destruct (key_text ctx k) as [out level]. by destruct (scalar_text ctx v).
Qed.

(** X22.  [ot_json_dump2] leaves the context as it found it: the
    indentation levels [l0] and [l1] and the count [expensive] are changed
    while a container is printed and are restored when the call returns,
    however deep the tree is. *)
Theorem ot_json_dump2_restores_ctx node ctx : (ot_json_dump2 node ctx).2 = ctx.
Proof.
  revert ctx. induction node as [k v|k array flat costly subs IH] using ot_node_ind_subs;
    intros ctx; simpl.
  - destruct (key_text ctx k) as [out level]. by destruct (scalar_text ctx v).
  - destruct (key_text ctx k) as [out level].
    case_bool_decide as Hcut.
    + match goal with
      | |- context [dump_subs ?f ?s ?i ?o ?c] =>
          destruct (dump_subs_ctx f s i o c IH) as (Hctx & _);
          destruct (dump_subs f s i o c) as [[i' out'] ctx3]
      end.
      simpl in Hctx. subst ctx3. clear.
      destruct (negb flat && bool_decide (0 < i')); simpl;
        destruct ctx, costly, flat; simpl; unfold set_expensive, set_l0, set_l1;
        simpl; f_equal; lia.
    + clear. destruct (negb flat && bool_decide (0 < 0)); simpl;
        destruct ctx, costly; simpl; unfold set_expensive; simpl; f_equal; lia.
Qed.

(** A container beyond the cutoff: the loop is not entered. *)
Lemma ot_json_dump2_elides_at ctx k (array flat costly : bool) subs :
  cutoff ctx < expensive ctx + (if costly then 1 else 0) →
  (ot_json_dump2 (OtContainer k array flat costly subs) ctx).1
  = (key_text ctx k).1 +:+ IND (key_text ctx k).2 (open_sep array) +:+ close_sep array.
Proof.
  intros Hcut. simpl. destruct (key_text ctx k) as [out level]. simpl.
  rewrite bool_decide_false by (destruct costly; simpl; lia).
  rewrite bool_decide_false by lia. rewrite andb_false_r. simpl.
  unfold open_sep, close_sep. clear.
  generalize (IND level (if array then "[" else "{")). intros s.
  generalize (if array then "]" else "}"). intros c.
  induction out as [|x out IHout]; [reflexivity|].
  change (String x out +:+ s) with (String x (out +:+ s)).
  change (String x (out +:+ s) +:+ "" +:+ c) with (String x ((out +:+ s) +:+ "" +:+ c)).
  change (String x out +:+ s +:+ c) with (String x (out +:+ s +:+ c)).
  by rewrite IHout.
Qed.

(** X23.  A container is printed without its children, as its opening and
    its closing character, when the count of costly containers open
    (itself included) exceeds the cutoff. *)
Theorem ot_json_dump2_elides ctx k (array flat costly : bool) subs :
  cutoff ctx < expensive ctx + (if costly then 1 else 0) →
  (ot_json_dump2 (OtContainer k array flat costly subs) ctx).1
  = (key_text ctx k).1 +:+ IND (key_text ctx k).2 (open_sep array) +:+ close_sep array.
Proof.
  apply ot_json_dump2_elides_at.
Qed.

Lemma string_app_nil_r (a : string) : a +:+ "" = a.
Proof.
  induction a as [|x a IH]; [reflexivity|].
  change (String x a +:+ "") with (String x (a +:+ "")). by rewrite IH.
Qed.

Lemma string_app_assoc' (a b c : string) : (a +:+ b) +:+ c = a +:+ (b +:+ c).
Proof.
  induction a as [|x a IH]; [reflexivity|].
  change ((String x a +:+ b) +:+ c) with (String x ((a +:+ b) +:+ c)).
  change (String x a +:+ b +:+ c) with (String x (a +:+ b +:+ c)).
  by rewrite IH.
Qed.

(** What the loop prints for children that are values without keys, in a
    flat container: each is preceded by a comma but the first, and by a
    space. *)
Lemma dump_subs_flat vs i out ctx :
  l0 ctx = 0 → 0 < i →
  dump_subs ot_json_dump2 (OtScalar None <$> vs) i out ctx
  = (i + Z.of_nat (length vs),
     out +:+ foldr (λ t rest, ", " +:+ t +:+ rest) "" (scalar_texts ctx vs),
     ctx).
Proof.
  intros Hl0 Hi. revert i out Hi. induction vs as [|v vs IH]; intros i out Hi.
  - simpl. rewrite string_app_nil_r. do 2 f_equal. lia.
  - cbn [fmap list_fmap dump_subs ot_json_dump2 key_text].
    rewrite Hl0. rewrite bool_decide_true by lia.
    rewrite bool_decide_false by lia.
    unfold scalar_texts. cbn [fmap list_fmap foldr].
    fold (scalar_texts ctx vs).
    destruct (scalar_text ctx v) as [text|] eqn:Ht; cbn [default].
    + change (list_fmap ot_scalar ot_node (OtScalar None) vs) with (OtScalar None <$> vs).
      rewrite IH by lia.
      do 2 f_equal; [simpl; lia|]. unfold IND.
      rewrite !string_app_assoc'. reflexivity.
    + change (list_fmap ot_scalar ot_node (OtScalar None) vs) with (OtScalar None <$> vs).
      rewrite IH by lia.
      do 2 f_equal; [simpl; lia|]. rewrite !string_app_assoc'. reflexivity.
Qed.

Lemma concat_comma (t : string) (ts : list string) :
  String.concat ", " (t :: ts) = t +:+ foldr (λ t rest, ", " +:+ t +:+ rest) "" ts.
Proof.
  revert t. induction ts as [|t' ts IH]; intros t.
  - simpl. by rewrite string_app_nil_r.
  - change (String.concat ", " (t :: t' :: ts))
      with (t +:+ ", " +:+ String.concat ", " (t' :: ts)).
    by rewrite IH.
Qed.

(** X24.  A flat container within the cutoff whose children are values
    without keys is printed on one line: the opening character, the values
    separated by a comma and a space, with a space before the first and
    after the last, and the closing character; [[]] or [{}] when it has no
    child. *)
Theorem ot_json_dump2_flat ctx (array costly : bool) (vs : list ot_scalar) :
  expensive ctx + (if costly then 1 else 0) ≤ cutoff ctx →
  (ot_json_dump2 (OtContainer None array true costly (OtScalar None <$> vs)) ctx).1
  = IND (l0 ctx) (open_sep array)
    +:+ (if vs is [] then ""
         else " " +:+ String.concat ", " (scalar_texts ctx vs) +:+ " ")
    +:+ close_sep array.
Proof.
  intros Hcut. cbn [ot_json_dump2 key_text].
  rewrite bool_decide_true by (destruct costly; simpl; lia).
  destruct vs as [|v vs].
  - simpl. rewrite ?string_app_assoc'. reflexivity.
  - cbn [fmap list_fmap dump_subs].
    match goal with
    | |- context [ot_json_dump2 (OtScalar None v) ?c] => set (ctx1 := c)
    end.
    assert (l0 ctx1 = 0) as Hl0 by done.
    assert (∀ w, scalar_text ctx1 w = scalar_text ctx w) as Hsame.
    { intros w. subst ctx1. by destruct w, costly. }
    assert (scalar_texts ctx1 vs = scalar_texts ctx vs) as Htexts.
    { unfold scalar_texts. apply list_fmap_ext. intros ? w _. by rewrite Hsame. }
    pose proof (ot_json_dump2_scalar_ctx None v ctx1) as Hrestore.
    cbn [ot_json_dump2 key_text] in *. rewrite Hl0 in *. rewrite Hsame in *.
    rewrite bool_decide_false by lia.
    rewrite bool_decide_false by (intros Hne; by apply Hne).
    destruct (scalar_text ctx v) as [text|] eqn:Ht;
      change (list_fmap ot_scalar ot_node (OtScalar None) vs)
        with (OtScalar None <$> vs);
      rewrite dump_subs_flat by (done || lia);
      rewrite Htexts; cbn [fst snd];
      rewrite bool_decide_true by lia; cbn [negb andb fst];
      unfold scalar_texts; cbn [fmap list_fmap]; rewrite Ht; cbn [default];
      fold (scalar_texts ctx vs);
      change (list_fmap ot_scalar string (λ v0, default "" (scalar_text ctx v0)) vs)
        with (scalar_texts ctx vs);
      rewrite concat_comma; unfold IND;
      rewrite !string_app_assoc'; reflexivity.
Qed.

(** X25.  [ot_json_dump] starts at indentation 0 with no costly
    container open; with a negative cutoff the comparison of line 98 fails
    for a root container whether it is costly or not, which is then
    printed as its key, if it has one, and its opening and closing
    character alone. *)
Theorem ot_json_dump_negative_cutoff (tty : bool) k (array flat costly : bool) subs cut :
  cut < 0 →
  ot_json_dump tty (OtContainer k array flat costly subs) cut
  = (if k is Some key
     then KEY (JsonCtx 0 0 0 cut tty) +:+ dq +:+ key +:+ dq
          +:+ NORMAL (JsonCtx 0 0 0 cut tty) +:+ ": "
     else "")
    +:+ open_sep array +:+ close_sep array.
Proof.
  intros Hcut. unfold ot_json_dump.
  rewrite ot_json_dump2_elides_at by (destruct costly; simpl; lia).
  destruct k as [key|]; reflexivity.
Qed.

End Json.

(** * The properties at concrete inputs *)

Section Instances.

Local Existing Instance spec_pipewire_lib.
Local Existing Instance folding_build.
Local Existing Instance spec_pulse_server.

Lemma capture_process_forwards_descriptor_witness :
  ∃ d' w',
    capture_process (demo_data [PwBuffer 1] [PwBuffer 2]) demo_world = Some (d', w') ∧
    samples w' = samples demo_world ∧
    descriptors w' !! 2 = Some (SpaBuffer [100] 2 4).
Proof.
  destruct (capture_process_forwards_descriptor
              (demo_data [PwBuffer 1] [PwBuffer 2]) demo_world
              (demo_stream "loopback capture" [PwBuffer 1])
              (demo_stream "loopback playback" [PwBuffer 2])
              eq_refl eq_refl) as (d' & w' & Hrun & Hsamples & _ & Hdesc).
  exists d', w'. split; [exact Hrun|]. split; [exact Hsamples|]. exact Hdesc.
Defined.

Lemma capture_process_requeues_once_witness :
  ∃ d' w' cs' ps',
    rt_run [Tick; Refill [PwBuffer 1] [PwBuffer 2]; Tick]
           (demo_data [PwBuffer 1] []) demo_world = Some (d', w') ∧
    capture d' = Some cs' ∧ playback d' = Some ps' ∧
    discipline None (history cs') = Some None ∧
    discipline None (history ps') = Some None.
Proof.
  destruct (capture_process_requeues_once
              [Tick; Refill [PwBuffer 1] [PwBuffer 2]; Tick]
              (demo_data [PwBuffer 1] []) demo_world
              (demo_stream "loopback capture" [PwBuffer 1])
              (demo_stream "loopback playback" [])
              eq_refl eq_refl eq_refl eq_refl) as [_ Hrun].
  exact Hrun.
Defined.

Lemma capture_process_playback_only_untouched_witness :
  ∃ d' w' ps',
    capture_process (demo_data [] [PwBuffer 2]) demo_world = Some (d', w') ∧
    playback d' = Some ps' ∧
    history ps' = [OpDequeue (Some (PwBuffer 2)); OpQueue (PwBuffer 2)] ∧
    descriptors w' = descriptors demo_world ∧
    samples w' = samples demo_world ∧
    log w' = [(LogWarn, "out of capture buffers: %m")].
Proof.
  exact (capture_process_playback_only_untouched
           (demo_data [] [PwBuffer 2]) demo_world
           (demo_stream "loopback capture" [])
           (demo_stream "loopback playback" [PwBuffer 2])
           (PwBuffer 2) [] eq_refl eq_refl eq_refl eq_refl).
Defined.

(** C4 fails as stated: only the playback dequeue succeeds, and the
    buffer is queued back designating the bytes it designated before,
    which are not zero. *)
Lemma capture_process_playback_only_not_silent :
  ring (demo_stream "loopback capture" []) = [] ∧
  ring (demo_stream "loopback playback" [PwBuffer 2]) = [PwBuffer 2] ∧
  ∃ d' w' ps',
    capture_process (demo_data [] [PwBuffer 2]) demo_world = Some (d', w') ∧
    playback d' = Some ps' ∧
    history ps' = [OpDequeue (Some (PwBuffer 2)); OpQueue (PwBuffer 2)] ∧
    buffer_bytes w' (descriptors w' !!! 2) = [9; 9; 9; 9; 9; 9; 9; 9] ∧
    silent w' (descriptors w' !!! 2) = false.
Proof.
  split; [done|]. split; [done|].
  eexists _, _, _. split; [reflexivity|]. split; [reflexivity|].
  split; [reflexivity|]. split; vm_compute; reflexivity.
Qed.



Lemma core_error_policy_witness :
  exit_code (main (demo_env [CoreErrorEvent 5 0 (-2) "no node";
                             CoreErrorEvent 0 1 (-32) "connection error"]) [])
    = Some 0 ∧
  exit_code (main (demo_env [CoreErrorEvent 5 0 (-2) "no node";
                             CoreErrorEvent 0 1 (-2) "no node"]) [])
    = None.
Proof.
  split.
  - destruct (core_error_policy
                (demo_env [CoreErrorEvent 5 0 (-2) "no node";
                           CoreErrorEvent 0 1 (-32) "connection error"])
                [] (options_read (demo_env []) [])
                [CoreErrorEvent 5 0 (-2) "no node"] []
                0 1 (-32) "connection error")
      as (_ & Hquit & _).
    + repeat split; vm_compute; reflexivity.
    + reflexivity.
    + constructor; [|constructor]. intros [E _]. discriminate E.
    + destruct (Hquit ltac:(split; reflexivity)) as [Hexit _]. exact Hexit.
  - destruct (core_error_policy
                (demo_env [CoreErrorEvent 5 0 (-2) "no node";
                           CoreErrorEvent 0 1 (-2) "no node"])
                [] (options_read (demo_env []) [])
                [CoreErrorEvent 5 0 (-2) "no node"] []
                0 1 (-2) "no node")
      as (_ & _ & Hstay).
    + repeat split; vm_compute; reflexivity.
    + reflexivity.
    + constructor; [|constructor]. intros [E _]. discriminate E.
    + apply Hstay; [|constructor]. intros [_ E]. discriminate E.
Defined.

(** C6: the daemon refuses the capture stream's connect,
    [setup_streams] returns the error, [main] drops it, runs the loop and
    returns 0 when [SIGINT] ends it. *)
Theorem refused_connect_exits_zero :
  setup_result
    (main (Env "pw-loopback" 4242 None true true true true true
               None None (-2) 0 [SignalEvent SIGINT]) [])
    = Some (-2) ∧
  exit_code
    (main (Env "pw-loopback" 4242 None true true true true true
               None None (-2) 0 [SignalEvent SIGINT]) [])
    = Some 0.
Proof. split; vm_compute; reflexivity. Qed.

(** C7 fails as stated: two channels and a channel map that names one
    position; both streams are created and connected and [main] returns 0
    when [SIGINT] ends the loop. *)
Lemma channel_map_mismatch_accepted :
  length (split_names "" "[ FL ]") = 1%nat ∧
  channels (final (main (demo_env [SignalEvent SIGINT])
                        [OptChannels "2"; OptChannelMap "[ FL ]"])) = 2 ∧
  (∃ cs ps,
      capture (final (main (demo_env [SignalEvent SIGINT])
                           [OptChannels "2"; OptChannelMap "[ FL ]"])) = Some cs ∧
      playback (final (main (demo_env [SignalEvent SIGINT])
                            [OptChannels "2"; OptChannelMap "[ FL ]"])) = Some ps ∧
      is_Some (connected cs) ∧ is_Some (connected ps)) ∧
  exit_code (main (demo_env [SignalEvent SIGINT])
                  [OptChannels "2"; OptChannelMap "[ FL ]"]) = Some 0.
Proof.
  split; [vm_compute; reflexivity|]. split; [vm_compute; reflexivity|].
  split; [|vm_compute; reflexivity].
  eexists _, _. split; [vm_compute; reflexivity|].
  split; [vm_compute; reflexivity|]. split; eexists; reflexivity.
Qed.

(** C8 fails as stated: [data.latency] is a [uint32_t], and for 89478486
    ms the frame count [ms * 48000 / 1000 = 4294967328] does not fit one.
    In either build the streams are constructed with
    [node.latency = 32/48000]. *)
Lemma latency_exceeds_uint32 :
  atoi "89478486" = 89478486 ∧ 89478486 * 48000 `div` 1000 = 4294967328 ∧
  (∃ cs,
     capture (final (@main spec_pipewire_lib folding_build
                       (demo_env [SignalEvent SIGINT]) [OptLatency "89478486"]))
       = Some cs ∧
     pw_properties_get (stream_props cs) PW_KEY_NODE_LATENCY = Some "32/48000") ∧
  (∃ cs,
     capture (final (@main spec_pipewire_lib wrapping_build
                       (demo_env [SignalEvent SIGINT]) [OptLatency "89478486"]))
       = Some cs ∧
     pw_properties_get (stream_props cs) PW_KEY_NODE_LATENCY = Some "32/48000").
Proof.
  split; [vm_compute; reflexivity|]. split; [vm_compute; reflexivity|].
  split; eexists; split; vm_compute; reflexivity.
Qed.

Lemma latency_frames_exact_witness :
  ∃ cs ps,
    capture (final (main (demo_env [SignalEvent SIGINT]) [OptLatency "20"]))
      = Some cs ∧
    playback (final (main (demo_env [SignalEvent SIGINT]) [OptLatency "20"]))
      = Some ps ∧
    pw_properties_get (stream_props cs) PW_KEY_NODE_LATENCY = Some "960/48000" ∧
    pw_properties_get (stream_props ps) PW_KEY_NODE_LATENCY = Some "960/48000".
Proof.
  eexists _, _. split; [vm_compute; reflexivity|].
  split; [vm_compute; reflexivity|].
  destruct (latency_frames_exact
              (demo_env [SignalEvent SIGINT]) [OptLatency "20"] [] "20" []
              (options_read (demo_env [SignalEvent SIGINT]) [OptLatency "20"])
              _ _ 20
              eq_refl ltac:(constructor) ltac:(vm_compute; reflexivity)
              ltac:(lia) ltac:(repeat split; vm_compute; reflexivity)
              ltac:(vm_compute; reflexivity) ltac:(vm_compute; reflexivity))
    as (_ & Hwritten & _).
  destruct (Hwritten ltac:(vm_compute; discriminate)) as [Hc Hp].
  split; [rewrite Hc | rewrite Hp]; vm_compute; reflexivity.
Defined.

(** C9 fails as stated: the daemon refuses the capture stream's connect;
    both streams have been created, the capture stream's connect was made
    and the playback stream's never is. *)
Lemma refused_capture_leaves_playback_unconnected :
  ∃ cs ps,
    capture (final (main refused_connect_env [])) = Some cs ∧
    playback (final (main refused_connect_env [])) = Some ps ∧
    connected cs = Some (ConnectCall PW_DIRECTION_INPUT PW_ID_ANY connect_flags
                           (loopback_params 2)) ∧
    connected ps = None.
Proof.
  eexists _, _. split; [vm_compute; reflexivity|].
  split; [vm_compute; reflexivity|]. split; vm_compute; reflexivity.
Qed.

Lemma streams_share_format_and_group_witness :
  ∃ cs ps,
    capture (final (main (demo_env [SignalEvent SIGINT])
                         [OptChannels "1"; OptPlaybackProps "node.group=x"]))
      = Some cs ∧
    playback (final (main (demo_env [SignalEvent SIGINT])
                          [OptChannels "1"; OptPlaybackProps "node.group=x"]))
      = Some ps ∧
    pw_properties_get (stream_props cs) PW_KEY_NODE_GROUP
      = pw_properties_get (stream_props ps) PW_KEY_NODE_GROUP ∧
    connected cs = Some (ConnectCall PW_DIRECTION_INPUT PW_ID_ANY connect_flags
                           (loopback_params 1)) ∧
    connected ps = Some (ConnectCall PW_DIRECTION_OUTPUT PW_ID_ANY connect_flags
                           (loopback_params 1)).
Proof.
  eexists _, _. split; [vm_compute; reflexivity|].
  split; [vm_compute; reflexivity|].
  destruct (streams_share_format_and_group
              (demo_env [SignalEvent SIGINT])
              [OptChannels "1"; OptPlaybackProps "node.group=x"] _ _
              ltac:(vm_compute; reflexivity) ltac:(vm_compute; reflexivity))
    as ((_ & Hgroup) & Hcapture & _ & Hplayback & _).
  split; [exact Hgroup|].
  split; [rewrite Hcapture | rewrite Hplayback by (vm_compute; discriminate)];
    vm_compute; reflexivity.
Defined.



Lemma channel_map_checked_by_null_sink_only_witness :
  same_outcome
    (main (demo_env [SignalEvent SIGINT])
          ([OptChannels "2"] ++ OptChannelMap "[ FL ]" :: []))
    (main (demo_env [SignalEvent SIGINT]) ([OptChannels "2"] ++ [])) ∧
  ∃ freed,
    create_module_null_sink (SinkEnv true None) (Impl 2 (ChannelMap 2 [3; 4]))
      (Some "sink_name=foo channels=2 channel_map=FL")
      = Failed EINVAL (Some freed).
Proof.
  pose (p := (null_sink_channels (Impl 2 (ChannelMap 2 [3; 4]))
                (null_sink_names
                   (null_sink_start
                      (Some "sink_name=foo channels=2 channel_map=FL")))).2).
  assert (null_sink_channels (Impl 2 (ChannelMap 2 [3; 4]))
            (null_sink_names
               (null_sink_start (Some "sink_name=foo channels=2 channel_map=FL")))
          = (2, p)) as Hch by (vm_compute; reflexivity).
  assert (pw_properties_get p "channel_map" = Some "FL") as Hget
    by (vm_compute; reflexivity).
  assert (map_channels (channel_map_parse "FL" CHANNEL_MAP_INIT) ≠ 2) as Hne
    by (vm_compute; discriminate).
  destruct (channel_map_checked_by_null_sink_only
              (demo_env [SignalEvent SIGINT]) [OptChannels "2"] "[ FL ]" []
              (SinkEnv true None) (Impl 2 (ChannelMap 2 [3; 4]))
              (Some "sink_name=foo channels=2 channel_map=FL")
              2 p "FL" eq_refl Hch Hget Hne)
    as [Hmain Hsink].
  split; [exact Hmain|]. eexists. exact Hsink.
Defined.

End Instances.

(** ** Further properties at concrete inputs *)

Section MoreInstances.

Local Existing Instance spec_pipewire_lib.
Local Existing Instance folding_build.
Local Existing Instance spec_pulse_server.

Local Ltac starts_here := repeat split; vm_compute; reflexivity.

Lemma signal_quits_loop_witness :
  exit_code (main (demo_env [CoreErrorEvent 5 0 (-2) "no node"; SignalEvent 15;
                             CoreErrorEvent 0 1 (-32) "late"]) []) = Some 0 ∧
  length (log (final_world
                 (main (demo_env [CoreErrorEvent 5 0 (-2) "no node"; SignalEvent 15;
                                  CoreErrorEvent 0 1 (-32) "late"]) []))) = 1%nat.
Proof.
  destruct (signal_quits_loop
              (demo_env [CoreErrorEvent 5 0 (-2) "no node"; SignalEvent 15;
                         CoreErrorEvent 0 1 (-32) "late"])
              [] (options_read (demo_env []) [])
              [CoreErrorEvent 5 0 (-2) "no node"] 15
              [CoreErrorEvent 0 1 (-32) "late"])
    as (Hexit & _ & Hlog).
  - starts_here.
  - reflexivity.
  - constructor; [|constructor]. intros [E _]. discriminate E.
  - right. reflexivity.
  - split; [exact Hexit|]. rewrite Hlog. reflexivity.
Defined.

Lemma option_returns_early_witness :
  exit_code (main (demo_env []) ([OptChannels "4"] ++ OptHelp :: [OptUnknown]))
    = Some 0 ∧
  exit_code (main (demo_env []) ([OptChannels "4"] ++ OptUnknown :: [OptHelp]))
    = Some (-1).
Proof.
  split.
  - destruct (option_returns_early (demo_env []) [OptChannels "4"] OptHelp [OptUnknown]
                eq_refl eq_refl ltac:(repeat constructor) eq_refl) as (Hexit & _).
    exact Hexit.
  - destruct (option_returns_early (demo_env []) [OptChannels "4"] OptUnknown [OptHelp]
                eq_refl eq_refl ltac:(repeat constructor) eq_refl) as (Hexit & _).
    exact Hexit.
Defined.

Lemma constructor_failure_exits_witness :
  exit_code (main no_context_env [OptLatency "20"]) = Some (-1) ∧
  capture (final (main no_context_env [OptLatency "20"])) = None.
Proof.
  destruct (constructor_failure_exits no_context_env [OptLatency "20"]
              ltac:(repeat constructor)) as (_ & Hfail).
  destruct (Hfail eq_refl) as (Hexit & Hcapture & _).
  split; [exact Hexit | exact Hcapture].
Defined.

Lemma node_target_per_direction_witness :
  ∃ cs ps,
    capture (final (main (demo_env [SignalEvent SIGINT]) target_opts)) = Some cs ∧
    playback (final (main (demo_env [SignalEvent SIGINT]) target_opts)) = Some ps ∧
    pw_properties_get (stream_props cs) PW_KEY_NODE_TARGET = Some "source-A" ∧
    pw_properties_get (stream_props ps) PW_KEY_NODE_TARGET = Some "sink-B".
Proof.
  eexists _, _. split; [vm_compute; reflexivity|].
  split; [vm_compute; reflexivity|].
  destruct (node_target_per_direction
              (demo_env [SignalEvent SIGINT]) target_opts
              (options_read (demo_env [SignalEvent SIGINT]) target_opts) _ _
              ltac:(starts_here)
              ltac:(vm_compute; reflexivity) ltac:(vm_compute; reflexivity))
    as (Hcapture & Hplayback & _).
  split.
  - apply (Hcapture [] "source-A" [OptPlayback "sink-B"; OptChannels "1"]);
      [reflexivity | repeat constructor].
  - apply (Hplayback [OptCapture "source-A"] "sink-B" [OptChannels "1"]);
      [reflexivity | repeat constructor].
Defined.

Lemma channels_option_witness :
  ∃ cs ps,
    capture (final (main (demo_env [SignalEvent SIGINT]) [OptChannels "6"])) = Some cs ∧
    playback (final (main (demo_env [SignalEvent SIGINT]) [OptChannels "6"])) = Some ps ∧
    connected cs = Some (ConnectCall PW_DIRECTION_INPUT PW_ID_ANY connect_flags
                           (loopback_params 6)) ∧
    connected ps = Some (ConnectCall PW_DIRECTION_OUTPUT PW_ID_ANY connect_flags
                           (loopback_params 6)).
Proof.
  eexists _, _. split; [vm_compute; reflexivity|].
  split; [vm_compute; reflexivity|].
  destruct (channels_option
              (demo_env [SignalEvent SIGINT]) [OptChannels "6"]
              (options_read (demo_env [SignalEvent SIGINT]) [OptChannels "6"]) _ _
              ltac:(starts_here)
              ltac:(vm_compute; reflexivity) ltac:(vm_compute; reflexivity)
              ltac:(vm_compute; discriminate))
    as ((n & Hcapture & Hplayback & Hn) & _ & Hlast).
  destruct (Hlast [] "6" [] eq_refl ltac:(constructor)) as (Hcount & _).
  rewrite Hcapture, Hplayback, Hn, Hcount. split; vm_compute; reflexivity.
Defined.

Lemma group_name_option_witness :
  ∃ cs ps,
    capture (final (main (demo_env [SignalEvent SIGINT]) [OptChannels "6"])) = Some cs ∧
    playback (final (main (demo_env [SignalEvent SIGINT]) [OptChannels "6"])) = Some ps ∧
    pw_properties_get (stream_props cs) PW_KEY_NODE_GROUP = Some "pw-loopback-4242" ∧
    pw_properties_get (stream_props ps) PW_KEY_NODE_GROUP = Some "pw-loopback-4242".
Proof.
  eexists _, _. split; [vm_compute; reflexivity|].
  split; [vm_compute; reflexivity|].
  destruct (group_name_option
              (demo_env [SignalEvent SIGINT]) [OptChannels "6"]
              (options_read (demo_env [SignalEvent SIGINT]) [OptChannels "6"]) _ _
              ltac:(starts_here)
              ltac:(vm_compute; reflexivity) ltac:(vm_compute; reflexivity))
    as (Hdefault & _).
  destruct (Hdefault ltac:(repeat constructor)) as (Hcapture & Hplayback).
  rewrite Hcapture, Hplayback. split; vm_compute; reflexivity.
Defined.

Lemma negative_latency_wraps_witness :
  ∃ cs ps,
    capture (final (main (demo_env [SignalEvent SIGINT]) [OptLatency "-5"])) = Some cs ∧
    playback (final (main (demo_env [SignalEvent SIGINT]) [OptLatency "-5"])) = Some ps ∧
    pw_properties_get (stream_props cs) PW_KEY_NODE_LATENCY
      = Some "4294967056/48000".
Proof.
  eexists _, _. split; [vm_compute; reflexivity|].
  split; [vm_compute; reflexivity|].
  destruct (negative_latency_wraps
              (demo_env [SignalEvent SIGINT]) [OptLatency "-5"] [] "-5" []
              (options_read (demo_env [SignalEvent SIGINT]) [OptLatency "-5"])
              _ _ (-5)
              eq_refl ltac:(constructor) ltac:(vm_compute; reflexivity) ltac:(lia)
              ltac:(starts_here)
              ltac:(vm_compute; reflexivity) ltac:(vm_compute; reflexivity))
    as (_ & Hcapture & _).
  rewrite Hcapture. vm_compute. reflexivity.
Defined.

Lemma setup_streams_returns_zero_witness :
  (setup_streams (demo_env []) data_zero).2 = 0 ∧
  (setup_streams no_playback_env data_zero).2 ≤ 0.
Proof.
  split.
  - destruct (setup_streams_returns_zero (demo_env []) data_zero
                ltac:(intros n E; discriminate E) ltac:(intros n E; discriminate E))
      as (Hzero & _).
    apply Hzero. repeat split; vm_compute; discriminate.
  - destruct (setup_streams_returns_zero no_playback_env data_zero
                ltac:(intros n E; discriminate E)
                ltac:(intros n E; injection E as <-; lia))
      as (_ & Hneg & _).
    exact Hneg.
Defined.

Lemma capture_process_warnings_witness :
  ∃ d' w',
    capture_process (demo_data [] []) demo_world = Some (d', w') ∧
    log w' = log demo_world
             ++ [(LogWarn, "out of capture buffers: %m");
                 (LogWarn, "out of playback buffers: %m")].
Proof.
  exact (capture_process_warnings (demo_data [] []) demo_world
           (demo_stream "loopback capture" [])
           (demo_stream "loopback playback" []) eq_refl eq_refl).
Defined.

Lemma capture_process_aliases_witness :
  ∃ d' w',
    capture_process (demo_data [PwBuffer 1] [PwBuffer 2]) demo_world = Some (d', w') ∧
    buffer_bytes w' (descriptors w' !!! buffer (PwBuffer 2))
      = [7; 7; 7; 7; 7; 7; 7; 7].
Proof.
  destruct (capture_process_aliases
              (demo_data [PwBuffer 1] [PwBuffer 2]) demo_world
              (demo_stream "loopback capture" [PwBuffer 1])
              (demo_stream "loopback playback" [PwBuffer 2])
              (PwBuffer 1) [] (PwBuffer 2) []
              eq_refl eq_refl eq_refl eq_refl)
    as (d' & w' & Hrun & Hbytes & _).
  exists d', w'. split; [exact Hrun|]. rewrite Hbytes. vm_compute. reflexivity.
Defined.

End MoreInstances.

Section NullSinkInstances.

Local Existing Instance spec_pulse_server.

Local Ltac created_here argument :=
  pose (m := match create_module_null_sink sink_ok_env stereo_impl argument with
             | Created m => m
             | _ => ModuleRec None 0
             end);
  pose (p := default [] (props m));
  assert (Hcreated : create_module_null_sink sink_ok_env stereo_impl argument
                     = Created m) by (vm_compute; reflexivity);
  assert (Hprops : props m = Some p) by (vm_compute; reflexivity);
  exists m, p; split; [exact Hcreated|]; split; [exact Hprops|].

Local Ltac not_among :=
  let Hin := fresh in
  intros Hin;
  repeat (apply elem_of_cons in Hin as [Hin|Hin]; [discriminate Hin|]);
  by apply elem_of_nil in Hin.

Lemma null_sink_audio_keys_witness :
  ∃ m p,
    create_module_null_sink sink_ok_env stereo_impl
      (Some "sink_name=quiet channels=2x rate=44100") = Created m ∧
    props m = Some p ∧
    pw_properties_get p SPA_KEY_AUDIO_CHANNELS = Some "2x" ∧
    pw_properties_get p SPA_KEY_AUDIO_RATE = Some "44100".
Proof.
  created_here (Some "sink_name=quiet channels=2x rate=44100").
  destruct (null_sink_audio_keys _ _ _ m p Hcreated Hprops) as (Hchannels & Hrate).
  rewrite Hchannels, Hrate. split; vm_compute; reflexivity.
Defined.

Lemma null_sink_node_description_witness :
  ∃ m p,
    create_module_null_sink sink_ok_env stereo_impl (Some "sink_name=quiet") = Created m ∧
    props m = Some p ∧
    pw_properties_get p "device.description" = None ∧
    ∃ name, pw_properties_get p PW_KEY_NODE_NAME = Some name ∧
            pw_properties_get p PW_KEY_NODE_DESCRIPTION
              = Some (default_description name "Audio/Sink").
Proof.
  created_here (Some "sink_name=quiet").
  destruct (null_sink_node_description _ _ _ m p Hcreated Hprops)
    as (Hdevice & name & Hname & Hdescription).
  split; [exact Hdevice|]. exists name. split; [exact Hname|].
  rewrite Hdescription. f_equal.
Defined.

Lemma null_sink_keeps_other_keys_witness :
  ∃ m p,
    create_module_null_sink sink_ok_env stereo_impl
      (Some "sink_name=quiet custom.key=v") = Created m ∧
    props m = Some p ∧
    pw_properties_get p "custom.key" = Some "v".
Proof.
  created_here (Some "sink_name=quiet custom.key=v").
  rewrite (null_sink_keeps_other_keys _ _ _ m p "custom.key" Hcreated Hprops).
  - vm_compute. reflexivity.
  - not_among.
  - not_among.
  - intros str E. vm_compute in E. discriminate E.
Defined.

Lemma null_sink_sink_properties_win_witness :
  ∃ m p,
    create_module_null_sink sink_ok_env stereo_impl (Some role_argument) = Created m ∧
    props m = Some p ∧
    pw_properties_get p "media.role" = Some "b".
Proof.
  created_here (Some role_argument).
  apply (null_sink_sink_properties_win _ _ _ m p "media.role=b " "media.role" "b"
           Hcreated Hprops).
  - vm_compute. reflexivity.
  - vm_compute. reflexivity.
  - not_among.
  - discriminate.
Defined.


Lemma null_sink_position_joined_witness :
  pw_properties_get (null_sink_position (ChannelMap 2 [3; 4]) [])
    SPA_KEY_AUDIO_POSITION = Some "FL,FR".
Proof.
  rewrite null_sink_position_joined.
  - vm_compute. reflexivity.
  - change (map_positions (ChannelMap 2 [3; 4])) with [3; 4].
    intros id Hin.
    apply elem_of_cons in Hin as [->|Hin]; [vm_compute; lia|].
    apply elem_of_cons in Hin as [->|Hin]; [vm_compute; lia|].
    by apply elem_of_nil in Hin.
Defined.

End NullSinkInstances.

Section AuxInstances.

Local Existing Instance aux_pulse_server.

Lemma null_sink_position_cut_witness :
  pw_properties_get (null_sink_position (ChannelMap 3 [3; 9; 4]) [])
    SPA_KEY_AUDIO_POSITION = Some "FL,AUX1".
Proof.
  rewrite (null_sink_position_cut (ChannelMap 3 [3; 9; 4]) [] [3] 9 [4]).
  - vm_compute. reflexivity.
  - reflexivity.
  - intros id Hin.
    apply elem_of_cons in Hin as [->|Hin]; [vm_compute; lia|].
    by apply elem_of_nil in Hin.
  - intros id Hin.
    apply elem_of_cons in Hin as [->|Hin]; [vm_compute; lia|].
    apply elem_of_cons in Hin as [->|Hin]; [vm_compute; lia|].
    by apply elem_of_nil in Hin.
  - vm_compute. lia.
Defined.

Lemma null_sink_position_in_bounds_witness :
  Forall (λ w : nat * nat, (w.1 + w.2 ≤ 18)%nat)
         (position_writes 0 (map_positions (ChannelMap 3 [3; 9; 4])) 0).
Proof.
  apply (null_sink_position_in_bounds (ChannelMap 3 [3; 9; 4])).
  change (map_positions (ChannelMap 3 [3; 9; 4])) with [3; 9; 4].
  intros id Hin.
  apply elem_of_cons in Hin as [->|Hin]; [vm_compute; lia|].
  apply elem_of_cons in Hin as [->|Hin]; [vm_compute; lia|].
  apply elem_of_cons in Hin as [->|Hin]; [vm_compute; lia|].
  by apply elem_of_nil in Hin.
Defined.

End AuxInstances.

Section OtherInstances.

Lemma null_sink_unload_calls_witness :
  (module_null_sink_unload
     (proxy_events_run [ProxyBound 41; ProxyBound 42]
        (module_null_sink_load (inr 7)
           (SinkState (ModuleRec None SPA_ID_INVALID) None false)).1.1)).2
  = [ProxyDestroy (Some 7); RegistryDestroy 42].
Proof.
  destruct (null_sink_unload_calls (inr 7) [ProxyBound 41; ProxyBound 42]
              (SinkState (ModuleRec None SPA_ID_INVALID) None false) eq_refl)
    as (_ & Hcalls).
  rewrite Hcalls. vm_compute. reflexivity.
Defined.

Lemma ot_json_dump2_elides_witness :
  (ot_json_dump2 (OtContainer (Some "params") true false true
                    [OtScalar None (VInt 1); OtScalar None (VInt 2)])
     (JsonCtx 2 0 0 0 false)).1
  = "    " +:+ dq +:+ "params" +:+ dq +:+ ": []".
Proof.
  rewrite (ot_json_dump2_elides (JsonCtx 2 0 0 0 false) (Some "params") true false true
             [OtScalar None (VInt 1); OtScalar None (VInt 2)] ltac:(simpl; lia)).
  vm_compute. reflexivity.
Defined.

Lemma ot_json_dump2_flat_witness :
  (ot_json_dump2 (OtContainer None true true false
                    (OtScalar None <$> [VInt 1; VBool true; VString "a"]))
     (JsonCtx 0 0 0 0 false)).1
  = "[ 1, true, " +:+ dq +:+ "a" +:+ dq +:+ " ]".
Proof.
  rewrite (ot_json_dump2_flat (JsonCtx 0 0 0 0 false) true false
             [VInt 1; VBool true; VString "a"] ltac:(simpl; lia)).
  vm_compute. reflexivity.
Defined.

Lemma ot_json_dump_negative_cutoff_witness :
  ot_json_dump false (OtContainer None false false false
                        [OtScalar (Some "id") (VInt 7)]) (-1)
  = "{}".
Proof.
  rewrite (ot_json_dump_negative_cutoff false None false false false
             [OtScalar (Some "id") (VInt 7)] (-1) ltac:(lia)).
  vm_compute. reflexivity.
Defined.

End OtherInstances.
